(** * tcpchat: frame codec, conversation registry, session loop, fan-out

    A shallow embedding of the Go packages [common], [server] and [client]
    of nikochiko/tcpchat, and the properties of the wire protocol and the
    session engine established on it.

    Conventions.
    - A Go [[]byte] is a [list byte]; a Go [string] is a [string].
    - A Go [error] value is an [option error]: [None] is [nil].
    - A [net.Conn] is the list of bytes written to it so far together
      with its closed flag; an incoming byte stream is the list of chunks
      the successive [Read] calls of the transport hand over, ended by
      the error the transport reports once the chunks are used up.
    - [encoding/json] is an external collaborator: decoders and encoders
      are parameters of the functions that call them.
    - [uuid.New] draws from a supply of tokens threaded through the
      state. *)

From Stdlib.Strings Require Import Byte.
From Stdlib Require Import DecimalString.
From stdpp Require Import base option list strings gmap.

#[global] Instance byte_eq_decision : EqDecision byte := Byte.byte_eq_dec.

(** ** Package [common] (src/unnamed/part_004) *)

Module common.

(** Go errors that the code tells apart ([io.EOF],
    [os.ErrDeadlineExceeded]) and all the others, by message. *)
Inductive error : Type :=
| EOF
| ErrDeadlineExceeded
| ErrorString (msg : string).

#[global] Instance error_eq_dec : EqDecision error.
Proof. solve_decision. Defined.

Definition error_Error (e : error) : string :=
  match e with
  | EOF => "EOF"
  | ErrDeadlineExceeded => "i/o timeout"
  | ErrorString msg => msg
  end.

Definition AboutMeOperationType : string := "aboutme".
Definition CreateOperationType : string := "create".
Definition SubscribeOperationType : string := "subscribe".
Definition MessageOperationType : string := "message".
Definition ListOperationType : string := "list".

(** [var EOFBytes = []byte("\r\n")] *)
Definition EOFBytes : list byte := [x0d; x0a].

(** A [uuid.UUID] is 16 bytes, held here as the number they spell. *)
Abbreviation UUID := N (only parsing).

(** The zero value of [uuid.UUID]. *)
Definition uuid_Nil : UUID := 0%N.

(** [type Sender struct]; [type ClientAboutMe Sender] *)
Record Sender : Type := mkSender {
  Sender_ID : UUID;
  Sender_Name : string
}.
Abbreviation ClientAboutMe := Sender (only parsing).

(** [type Conversation struct] *)
Record Conversation : Type := mkConversation {
  Conversation_ID : UUID;
  Conversation_Nickname : string
}.

(** [type Message struct]; the two pointer fields may be [nil]. *)
Record Message : Type := mkMessage {
  Message_Conversation : option Conversation;
  Message_Sender : option Sender;
  Message_Text : string
}.

(** [type Error struct] *)
Record Error : Type := mkError {
  Error_Message : string
}.

(** [type Operation struct]; [Message] is a [*json.RawMessage]. *)
Record Operation : Type := mkOperation {
  Operation_Type : string;
  Operation_Message : option (list byte)
}.

(** [type Response struct] *)
Record Response : Type := mkResponse {
  Response_Status : string;
  Response_OperationType : string;
  Response_Error : option Error;
  Response_Message : option (list byte)
}.

(** [json.RawMessage("{}")] *)
Definition emptyJSON : list byte := [x7b; x7d].

Definition NewOperation : Operation :=
  mkOperation "" (Some emptyJSON).

Definition NewResponse : Response :=
  mkResponse "" "" None (Some emptyJSON).

(** Outcome of running a piece of Go code: a normal return, a run-time
    panic, or the fuel of a loop used up. *)
Inductive exec (A : Type) : Type :=
| Done (a : A)
| Panics
| OutOfFuel.
Arguments Done {A} a.
Arguments Panics {A}.
Arguments OutOfFuel {A}.

(** *** The [reader] interface, as implemented by [bufio.Reader] *)

(** The bytes still to come: [pending] is the buffered data followed by
    what each later [Read] of the transport returns, [final] is the
    error reported when nothing is left. *)
Record Reader : Type := mkReader {
  pending : list (list byte);
  final : error
}.

Definition content (r : Reader) : list byte := concat (pending r).

(** Cut [l] after the first occurrence of [d]. *)
Fixpoint cut_after (d : byte) (l : list byte) : option (list byte * list byte) :=
  match l with
  | [] => None
  | b :: l' =>
      if decide (b = d) then Some ([b], l')
      else match cut_after d l' with
           | Some (p, rest) => Some (b :: p, rest)
           | None => None
           end
  end.

(** [bufio.Reader.ReadBytes]: gather chunks until one holds the
    delimiter; the data after the delimiter stays buffered. With no
    delimiter before the stream ends, the data read so far and the
    stream's error are returned. *)
Fixpoint collect (d : byte) (acc : list byte) (chunks : list (list byte))
  : list byte * option (list (list byte)) :=
  match chunks with
  | [] => (acc, None)
  | c :: chunks' =>
      match cut_after d c with
      | Some (p, rest) => (acc ++ p, Some (rest :: chunks'))
      | None => collect d (acc ++ c) chunks'
      end
  end.

Definition ReadBytes (r : Reader) (delim : byte)
  : (list byte * option error) * Reader :=
  match collect delim [] (pending r) with
  | (b, Some chunks') => ((b, None), mkReader chunks' (final r))
  | (b, None) => ((b, Some (final r)), mkReader [] (final r))
  end.

(** *** [ReadUntil] *)

(** The body of the [for] loop. The [err] assigned by [:=] inside the
    loop is a new variable: the named result [err] is never written
    and is [nil] on every return. *)
Fixpoint ReadUntil_loop (fuel : nat) (r : Reader) (delim : list byte)
    (lastChar : byte) (returnBytes : list byte)
  : exec ((list byte * option error) * Reader) :=
  match fuel with
  | O => OutOfFuel
  | S fuel' =>
      let '((b, err), r') := ReadBytes r lastChar in
      match err with
      | Some _ => Done ((returnBytes, None), r')
      | None =>
          let returnBytes := returnBytes ++ b in
          if decide (length delim < length returnBytes) then
            let bSuffix := drop (length returnBytes - length delim) returnBytes in
            if decide (delim = bSuffix) then Done ((returnBytes, None), r')
            else ReadUntil_loop fuel' r' delim lastChar returnBytes
          else ReadUntil_loop fuel' r' delim lastChar returnBytes
      end
  end.

(** Every iteration that does not leave the loop takes at least one
    byte off the stream, so one more iteration than there are bytes is
    always enough. *)
Definition ReadUntil (r : Reader) (delim : list byte)
  : exec ((list byte * option error) * Reader) :=
  match last delim with
  | None => Panics
  | Some lastChar => ReadUntil_loop (S (length (content r))) r delim lastChar []
  end.

End common.

(** ** Package [bytes] of the Go library *)

Module bytes.

(** [bytes.Contains]: whether [subslice] occurs in [b]. The program
    does not call it; the properties of the frame codec are stated with
    it. *)
Fixpoint Contains (b subslice : list byte) : bool :=
  if decide (subslice `prefix_of` b) then true
  else match b with
       | [] => false
       | _ :: b' => Contains b' subslice
       end.

End bytes.

(** ** The external collaborators *)

(** What [json.Unmarshal] found in a document decoded into a [Sender]:
    a field of the target is written only when its key is present. *)
Record SenderFields : Type := mkSenderFields {
  field_id : option N;
  field_name : option string
}.

(** [encoding/json] at the types the program uses it, and the token
    generator behind [uuid.New]. A decoder returns [None] when
    [json.Unmarshal] returns an error; the targets other than [Sender]
    are zero values when they are decoded into. An encoder returns the
    pair that [json.Marshal] returns. [uuid_at n] is the token that the
    [n]-th call of [uuid.New] returns. *)
Record Env : Type := mkEnv {
  Unmarshal_Operation : list byte → option common.Operation;
  Unmarshal_Conversation : list byte → option common.Conversation;
  Unmarshal_Conversations : list byte → option (list common.Conversation);
  Unmarshal_Message : list byte → option common.Message;
  Unmarshal_Sender : list byte → option SenderFields;
  Unmarshal_Response : list byte → option common.Response;
  Marshal_Operation : common.Operation → list byte * option common.error;
  Marshal_Response : common.Response → list byte * option common.error;
  Marshal_Message : common.Message → list byte * option common.error;
  Marshal_Sender : common.Sender → list byte * option common.error;
  Marshal_Conversation : common.Conversation → list byte * option common.error;
  Marshal_Conversations : list common.Conversation → list byte * option common.error;
  uuid_at : nat → N
}.

(** [net.Conn], write side: the bytes sent so far and whether [Close]
    was called. A [Write] on a closed connection fails and sends
    nothing. *)
Record Conn : Type := mkConn {
  written : list byte;
  closed : bool
}.

Definition Conn_Write (conn : Conn) (b : list byte) : Conn * option common.error :=
  if closed conn
  then (conn, Some (common.ErrorString "use of closed network connection"))
  else (mkConn (written conn ++ b) false, None).

Definition Conn_Close (conn : Conn) : Conn := mkConn (written conn) true.

(** [strconv.Itoa] on a length. *)
Definition Itoa (n : nat) : string := NilZero.string_of_uint (Nat.to_uint n).

(** ** Package [server] (src/server/server.go) *)

Module server.
Import common.

Definition unmarshalingError : string :=
  "Error while unmarshaling data. Please check again".

(** The package-level variables [conversationIDs], [conversations] and
    [conversationsByNickname], and the number of tokens drawn from
    [uuid.New] so far. *)
Record Globals : Type := mkGlobals {
  conversationIDs : gmap N bool;
  conversations : list Conversation;
  conversationsByNickname : gmap string Conversation;
  uuid_calls : nat
}.

Definition initial : Globals := mkGlobals ∅ [] ∅ 0.

Definition uuid_New (env : Env) (g : Globals) : UUID * Globals :=
  (uuid_at env (uuid_calls g),
   mkGlobals (conversationIDs g) (conversations g)
     (conversationsByNickname g) (S (uuid_calls g))).

(** A Go map of booleans read at a key: [false] when the key is
    absent. *)
Definition map_get (m : gmap N bool) (k : N) : bool := default false (m !! k).

(** *** Response writers *)

Definition writeErrorResponse (env : Env) (conn : Conn) (s : string) : Conn :=
  let errorMessage := mkError s in
  let response := NewResponse in
  let response :=
    mkResponse "error" (Response_OperationType response)
      (Some errorMessage) (Response_Message response) in
  let '(responseBytes, _) := Marshal_Response env response in
  let '(conn, _) := Conn_Write conn responseBytes in
  let '(conn, _) := Conn_Write conn EOFBytes in
  Conn_Close (Conn_Close conn).

Definition writeOKResponse (env : Env) (conn : Conn) (message : list byte)
    (operationType : string) : Conn * option error :=
  let response := NewResponse in
  let response :=
    mkResponse "ok" (Response_OperationType response)
      (Response_Error response) (Response_Message response) in
  let response :=
    if decide (operationType ≠ "")
    then mkResponse (Response_Status response) operationType
           (Response_Error response) (Response_Message response)
    else response in
  let response :=
    if decide (message ≠ [])
    then mkResponse (Response_Status response) (Response_OperationType response)
           (Response_Error response) (Some message)
    else response in
  let '(responseBytes, err) := Marshal_Response env response in
  match err with
  | Some _ => (conn, Some (ErrorString "Something went wrong"))
  | None =>
      let '(conn, err) := Conn_Write conn (responseBytes ++ EOFBytes) in
      match err with
      | Some e => (conn, Some e)
      | None => (conn, None)
      end
  end.

(** *** Operation handlers *)

Definition handleCreateConversation (env : Env) (op : Operation) (g : Globals)
  : exec (Globals * option error) :=
  match Operation_Message op with
  | None => Panics
  | Some raw =>
      match Unmarshal_Conversation env raw with
      | None => Done (g, Some (ErrorString unmarshalingError))
      | Some conversation =>
          let '(id, g) := uuid_New env g in
          let conversation := mkConversation id (Conversation_Nickname conversation) in
          let conversation :=
            if decide (Conversation_Nickname conversation = "")
            then mkConversation (Conversation_ID conversation)
                   (Itoa (length (conversations g)))
            else conversation in
          match conversationsByNickname g !! Conversation_Nickname conversation with
          | Some _ =>
              let err := "conversation with nickname '" +:+
                         Conversation_Nickname conversation +:+ "' already exists" in
              Done (g, Some (ErrorString err))
          | None =>
              Done (mkGlobals
                      (<[Conversation_ID conversation := true]> (conversationIDs g))
                      (conversations g ++ [conversation])
                      (<[Conversation_Nickname conversation := conversation]>
                         (conversationsByNickname g))
                      (uuid_calls g),
                    None)
          end
      end
  end.

Definition handleListConversations (env : Env) (op : Operation) (g : Globals)
  : list byte * option error :=
  let '(conversationsJSON, err) := Marshal_Conversations env (conversations g) in
  match err with
  | Some e => (emptyJSON, Some e)
  | None => (conversationsJSON, err)
  end.

Definition handleSubscribe (env : Env) (op : Operation) (g : Globals)
    (conversationsToListenOn : gmap N bool)
  : exec (gmap N bool * option error) :=
  match Operation_Message op with
  | None => Panics
  | Some raw =>
      match Unmarshal_Conversation env raw with
      | None => Done (conversationsToListenOn, Some (ErrorString unmarshalingError))
      | Some inputConversation =>
          let nickname := Conversation_Nickname inputConversation in
          match conversationsByNickname g !! nickname with
          | None =>
              let err := "conversation '" +:+ nickname +:+ "' does not exist" in
              Done (conversationsToListenOn, Some (ErrorString err))
          | Some conversation =>
              let convID := Conversation_ID conversation in
              Done (<[convID := true]> conversationsToListenOn, None)
          end
      end
  end.

(** [handleMessage]; the last component is the value sent on
    [messagesChannel], when one is. *)
Definition handleMessage (env : Env) (op : Operation)
  : exec ((list byte * option error) * option Message) :=
  match Operation_Message op with
  | None => Panics
  | Some raw =>
      match Unmarshal_Message env raw with
      | None => Done ((emptyJSON, Some (ErrorString unmarshalingError)), None)
      | Some convMessage => Done ((emptyJSON, None), Some convMessage)
      end
  end.

(** [ParseClientAboutMe]: the target starts with a token of the
    server's own, and [json.Unmarshal] overwrites the fields whose keys
    the document has. *)
Definition ParseClientAboutMe (env : Env) (b : list byte) (g : Globals)
  : (ClientAboutMe * option error) * Globals :=
  let '(id, g) := uuid_New env g in
  let aboutClient := mkSender id "" in
  match Unmarshal_Sender env b with
  | None => ((aboutClient, Some (ErrorString unmarshalingError)), g)
  | Some f =>
      ((mkSender (default (Sender_ID aboutClient) (field_id f))
                 (default (Sender_Name aboutClient) (field_name f)),
        None), g)
  end.

Definition getOperation (env : Env) (b : list byte) : Operation * option error :=
  match Unmarshal_Operation env b with
  | None => (mkOperation "" None, Some (ErrorString unmarshalingError))
  | Some operation => (operation, None)
  end.

Definition sendAboutMeResponse (env : Env) (conn : Conn) (aboutClient : ClientAboutMe)
  : Conn * option error :=
  let '(b, err) := Marshal_Sender env aboutClient in
  match err with
  | Some e => (conn, Some e)
  | None =>
      let '(conn, _) := writeOKResponse env conn b AboutMeOperationType in
      (conn, None)
  end.

(** *** The session: [handleConnection] *)

(** What one connection's goroutines share: the write side of the
    connection and the map [conversationsToListenOn]. *)
Record Session : Type := mkSession {
  conn : Conn;
  conversationsToListenOn : gmap N bool
}.

Inductive control : Type := Continue | Break.

(** One turn of the [for] loop of [handleConnection], from the frame
    that [ReadUntil] returned on: decode, dispatch on the type, answer.
    The third component is the message that [handleMessage] sent on
    [messagesChannel] during the turn. *)
Definition serveRequest (env : Env) (request : list byte) (g : Globals) (s : Session)
  : exec (Globals * Session * option Message * control) :=
  let '(operation, err) := getOperation env request in
  match err with
  | Some e =>
      Done (g, mkSession (writeErrorResponse env (conn s) (error_Error e))
                 (conversationsToListenOn s), None, Break)
  | None =>
      let response := emptyJSON in
      let dispatched : exec (Globals * gmap N bool * list byte * option error * option Message) :=
        if decide (Operation_Type operation = CreateOperationType) then
          match handleCreateConversation env operation g with
          | Done (g', err) => Done (g', conversationsToListenOn s, response, err, None)
          | Panics => Panics
          | OutOfFuel => OutOfFuel
          end
        else if decide (Operation_Type operation = SubscribeOperationType) then
          match handleSubscribe env operation g (conversationsToListenOn s) with
          | Done (subs', err) => Done (g, subs', response, err, None)
          | Panics => Panics
          | OutOfFuel => OutOfFuel
          end
        else if decide (Operation_Type operation = MessageOperationType) then
          match handleMessage env operation with
          | Done ((response, err), sent) =>
              Done (g, conversationsToListenOn s, response, err, sent)
          | Panics => Panics
          | OutOfFuel => OutOfFuel
          end
        else if decide (Operation_Type operation = ListOperationType) then
          let '(response, err) := handleListConversations env operation g in
          Done (g, conversationsToListenOn s, response, err, None)
        else Done (g, conversationsToListenOn s, response, None, None) in
      match dispatched with
      | Done (g', subs', response, err, sent) =>
          match err with
          | Some e =>
              Done (g', mkSession (writeErrorResponse env (conn s) (error_Error e)) subs',
                    sent, Break)
          | None =>
              let '(conn', err) :=
                writeOKResponse env (conn s) response (Operation_Type operation) in
              match err with
              | Some e =>
                  Done (g', mkSession (writeErrorResponse env conn' (error_Error e)) subs',
                        sent, Break)
              | None => Done (g', mkSession conn' subs', sent, Continue)
              end
          end
      | Panics => Panics
      | OutOfFuel => OutOfFuel
      end
  end.

(** The [for] loop of [handleConnection] run on its own: [sent]
    gathers the messages put on [messagesChannel]. *)
Fixpoint sessionLoop (fuel : nat) (env : Env) (g : Globals) (s : Session)
    (connReader : Reader) (sent : list Message)
  : exec (Globals * Session * Reader * list Message) :=
  match fuel with
  | O => OutOfFuel
  | S fuel' =>
      match ReadUntil connReader EOFBytes with
      | Done ((request, err), connReader') =>
          if decide (err = Some EOF) then Done (g, s, connReader', sent)
          else
            match serveRequest env request g s with
            | Done (g', s', m, Continue) =>
                sessionLoop fuel' env g' s' connReader' (sent ++ option_list m)
            | Done (g', s', m, Break) =>
                Done (g', s', connReader', sent ++ option_list m)
            | Panics => Panics
            | OutOfFuel => OutOfFuel
            end
      | Panics => Panics
      | OutOfFuel => OutOfFuel
      end
  end.

(** The part of [handleConnection] before the loop, from the first
    frame on. [None] for the identity: the function returned before
    the session was set up. *)
Definition handshake (env : Env) (request : list byte) (err : option error)
    (g : Globals) (conn : Conn)
  : exec (Globals * Conn * option ClientAboutMe) :=
  match err with
  | Some _ => Done (g, writeErrorResponse env conn "Some error occurred", None)
  | None =>
      let '(operation, err) := getOperation env request in
      match err with
      | Some e => Done (g, writeErrorResponse env conn (error_Error e), None)
      | None =>
          match Operation_Message operation with
          | None => Panics
          | Some raw =>
              let '((aboutClient, err), g) := ParseClientAboutMe env raw g in
              match err with
              | Some e => Done (g, writeErrorResponse env conn (error_Error e), None)
              | None =>
                  let '(conn, err) := sendAboutMeResponse env conn aboutClient in
                  match err with
                  | Some e => Done (g, writeErrorResponse env conn (error_Error e), None)
                  | None => Done (g, conn, Some aboutClient)
                  end
              end
          end
      end
  end.

Definition handleConnection (fuel : nat) (env : Env) (g : Globals) (conn : Conn)
    (connReader : Reader)
  : exec (Globals * Session * Reader * option ClientAboutMe * list Message) :=
  match ReadUntil connReader EOFBytes with
  | Done ((request, err), connReader) =>
      match handshake env request err g conn with
      | Done (g, conn, None) => Done (g, mkSession conn ∅, connReader, None, [])
      | Done (g, conn, Some aboutClient) =>
          match sessionLoop fuel env g (mkSession conn ∅) connReader [] with
          | Done (g, s, connReader, sent) =>
              Done (g, s, connReader, Some aboutClient, sent)
          | Panics => Panics
          | OutOfFuel => OutOfFuel
          end
      | Panics => Panics
      | OutOfFuel => OutOfFuel
      end
  | Panics => Panics
  | OutOfFuel => OutOfFuel
  end.

(** *** The delivery goroutine: [subscribeToMessages] *)

(** What the goroutine does with a [message] received from
    [messagesChannel]. *)
Definition deliverMessage (env : Env) (s : Session) (message : Message) : exec Conn :=
  match Message_Conversation message with
  | None => Panics
  | Some conversation =>
      if map_get (conversationsToListenOn s) (Conversation_ID conversation) then
        let '(responseBytes, err) := Marshal_Message env message in
        match err with
        | Some _ => Done (conn s)
        | None =>
            let '(conn', _) :=
              writeOKResponse env (conn s) responseBytes MessageOperationType in
            Done conn'
        end
      else Done (conn s)
  end.

End server.

(** ** The server as a whole: connections and their goroutines *)

Module system.
Import common server.

(** The delivery goroutine of a connection is waiting in its [select],
    holds a message it has received from [messagesChannel] and not yet
    handled, or has returned. *)
Inductive worker : Type :=
| Idle
| Holding (m : Message)
| Stopped.

(** The goroutine running [handleConnection] is in its loop, is at the
    deferred [quit <- true], or has returned. *)
Inductive phase : Type :=
| Running
| Leaving
| Exited.

Record Client : Type := mkClient {
  session : Session;
  main : phase;
  subscriber : worker
}.

Record System : Type := mkSystem {
  globals : Globals;
  clients : list Client;
  crashed : bool
}.

Definition boot : System := mkSystem initial [] false.

(** The scheduler's choices. [messagesChannel] has no buffer: a send
    completes together with the receive of one delivery goroutine,
    which [Serve] names as [receiver]. *)
Inductive action : Type :=
| Accept (request : list byte)
| Serve (i : nat) (request : list byte) (receiver : nat)
| Deliver (j : nat)
| Quit (i : nat).

Definition crash (sys : System) : System :=
  mkSystem (globals sys) (clients sys) true.

Definition hand_over (j : nat) (m : Message) (cs : list Client) : option (list Client) :=
  match cs !! j with
  | Some (mkClient s ph Idle) => Some (<[j := mkClient s ph (Holding m)]> cs)
  | _ => None
  end.

(** One step of the server, [None] when the action cannot happen now.
    - [Accept request]: [Listen] accepts a connection and starts
      [handleConnection] on it; [request] is the first frame. The new
      client has the next index. A handshake that fails closes the
      connection before the delivery goroutine is started.
    - [Serve i request receiver]: the loop of client [i] takes one turn
      on the frame [request]. When the turn sends a message on
      [messagesChannel], the send completes only with a delivery
      goroutine waiting in its [select], here that of [receiver], which
      may be any client's, the sender's own included. A turn that ends
      in [break] leaves the loop.
    - [Deliver j]: the delivery goroutine of client [j] handles the
      message it holds.
    - [Quit i]: the deferred [quit <- true] of client [i] meets its
      delivery goroutine in the [select].
    A panic in any goroutine ends the process. *)
Definition step (env : Env) (sys : System) (a : action) : option System :=
  if crashed sys then None
  else
    match a with
    | Accept request =>
        match handshake env request None (globals sys) (mkConn [] false) with
        | Done (g, conn, Some _) =>
            Some (mkSystem g (clients sys ++ [mkClient (mkSession conn ∅) Running Idle]) false)
        | Done (g, conn, None) =>
            Some (mkSystem g (clients sys ++ [mkClient (mkSession conn ∅) Exited Stopped]) false)
        | Panics => Some (crash sys)
        | OutOfFuel => None
        end
    | Serve i request receiver =>
        match clients sys !! i with
        | Some (mkClient s Running t) =>
            match serveRequest env request (globals sys) s with
            | Done (g, s', sent, ctl) =>
                let ph := match ctl with Continue => Running | Break => Leaving end in
                let cs := <[i := mkClient s' ph t]> (clients sys) in
                match sent with
                | None => Some (mkSystem g cs false)
                | Some m =>
                    match hand_over receiver m cs with
                    | Some cs' => Some (mkSystem g cs' false)
                    | None => None
                    end
                end
            | Panics => Some (crash sys)
            | OutOfFuel => None
            end
        | _ => None
        end
    | Deliver j =>
        match clients sys !! j with
        | Some (mkClient s ph (Holding m)) =>
            match deliverMessage env s m with
            | Done conn' =>
                Some (mkSystem (globals sys)
                        (<[j := mkClient (mkSession conn' (conversationsToListenOn s)) ph Idle]>
                           (clients sys))
                        false)
            | Panics => Some (crash sys)
            | OutOfFuel => None
            end
        | _ => None
        end
    | Quit i =>
        match clients sys !! i with
        | Some (mkClient s Leaving Idle) =>
            Some (mkSystem (globals sys) (<[i := mkClient s Exited Stopped]> (clients sys)) false)
        | _ => None
        end
    end.

Fixpoint run (env : Env) (sys : System) (acts : list action) : option System :=
  match acts with
  | [] => Some sys
  | a :: acts' =>
      match step env sys a with
      | Some sys' => run env sys' acts'
      | None => None
      end
  end.

Definition reachable (env : Env) (sys : System) : Prop :=
  ∃ acts, run env boot acts = Some sys.

(** The bytes sent so far on the connection of client [j]. *)
Definition sent_to (sys : System) (j : nat) : list byte :=
  match clients sys !! j with
  | Some c => written (conn (session c))
  | None => []
  end.

Definition subscribed (sys : System) (j : nat) (id : UUID) : bool :=
  match clients sys !! j with
  | Some c => map_get (conversationsToListenOn (session c)) id
  | None => false
  end.

Definition holds (sys : System) (j : nat) : option Message :=
  match clients sys !! j with
  | Some (mkClient _ _ (Holding m)) => Some m
  | _ => None
  end.

End system.

(** ** Package [client] (src/unnamed/part_000) *)

Module client.
Import common.

Definition writeJSONTo {V : Type} (json_Marshal : V → list byte * option error)
    (conn : Conn) (v : V) : Conn * option error :=
  let '(b, err) := json_Marshal v in
  match err with
  | Some e => (conn, Some e)
  | None =>
      let '(conn, err) := Conn_Write conn (b ++ EOFBytes) in
      match err with
      | Some e => (conn, Some e)
      | None =>
          let '(conn, _) := Conn_Write conn EOFBytes in
          (conn, None)
      end
  end.

(** [readJSONFrom]; [read] is what the one [Read] into the 1024-byte
    buffer returned. *)
Definition readJSONFrom (env : Env) (read : list byte * option error) (v : Response)
  : Response * option error :=
  let '(data, err) := read in
  match err with
  | Some e => (v, Some e)
  | None =>
      match Unmarshal_Response env (take 1024 data) with
      | None => (v, Some (ErrorString "invalid character"))
      | Some v' => (v', None)
      end
  end.

(** The package-level variables, and what was printed for the user. *)
Record State : Type := mkState {
  globalConversations : list Conversation;
  clientInfo : ClientAboutMe;
  printed : list (string * string)
}.

(** How a goroutine of the client ends: it returns, [log.Fatalf] ends
    the process, or it panics. *)
Inductive ending : Type :=
| Returned
| Fatal
| Panicked.

Definition handleResponse (env : Env) (response : Response) (st : State)
  : State + ending :=
  if decide (Response_OperationType response = ListOperationType) then
    match Response_Message response with
    | None => inr Panicked
    | Some raw =>
        match Unmarshal_Conversations env raw with
        | None => inr Fatal
        | Some l => inl (mkState l (clientInfo st) (printed st))
        end
    end
  else if decide (Response_OperationType response = MessageOperationType) then
    match Response_Message response with
    | None => inr Panicked
    | Some raw =>
        match Unmarshal_Message env raw with
        | None => inr Fatal
        | Some message =>
            match Message_Sender message with
            | None => inr Panicked
            | Some sender =>
                inl (mkState (globalConversations st) (clientInfo st)
                       (printed st ++ [(Sender_Name sender, Message_Text message)]))
            end
        end
    end
  else if decide (Response_OperationType response = AboutMeOperationType) then
    match Response_Message response with
    | None => inr Panicked
    | Some raw =>
        match Unmarshal_Sender env raw with
        | None => inr Fatal
        | Some f =>
            inl (mkState (globalConversations st)
                   (mkSender (default (Sender_ID (clientInfo st)) (field_id f))
                             (default (Sender_Name (clientInfo st)) (field_name f)))
                   (printed st))
        end
    end
  else inl st.

(** What a turn of the loop of [handleIncoming] meets: a value ready
    on [quit], or else the outcome of the read it starts. *)
Inductive event : Type :=
| QuitRequested
| ConnRead (data : list byte) (err : option error).

(** The receive loop has ended, or has used up the events and is
    still running. *)
Inductive outcome : Type :=
| Ended (how : ending) (st : State)
| StillReceiving (st : State).

Fixpoint handleIncoming (env : Env) (events : list event) (st : State) : outcome :=
  match events with
  | [] => StillReceiving st
  | QuitRequested :: _ => Ended Returned st
  | ConnRead data err :: events' =>
      let response := mkResponse "" "" None None in
      let '(response, err) := readJSONFrom env (data, err) response in
      if decide (err = Some ErrDeadlineExceeded) then handleIncoming env events' st
      else
        match err with
        | Some _ => Ended Fatal st
        | None =>
            let logged : option ending :=
              if decide (Response_Status response = "ok") then
                match Response_Message response with
                | None => Some Panicked
                | Some _ => None
                end
              else if decide (Response_Status response = "error") then
                match Response_Error response with
                | None => Some Panicked
                | Some _ => None
                end
              else None in
            match logged with
            | Some how => Ended how st
            | None =>
                match handleResponse env response st with
                | inl st' => handleIncoming env events' st'
                | inr how => Ended how st
                end
            end
        end
  end.

End client.

(** ** A concrete environment

    An encoder that writes the JSON text of [encoding/json] for values
    whose strings need no escaping, decoders that accept exactly the
    encodings of a small vocabulary (surrounded by any JSON white space),
    and a counter as token generator. *)

Module sample.
Import common.

(** The bytes of [s], with every backquote read as a double quote. *)
Definition text (s : string) : list byte :=
  (λ b, if decide (b = x60) then x22 else b) <$> String.list_byte_of_string s.

Definition hex_digit (n : N) : byte :=
  nth (N.to_nat n) (String.list_byte_of_string "0123456789abcdef") x30.

Fixpoint hex (k : nat) (n : N) : list byte :=
  match k with
  | O => []
  | S k' => hex k' (n / 16)%N ++ [hex_digit (n mod 16)%N]
  end.

(** [uuid.UUID.String] *)
Definition uuid_String (u : N) : list byte :=
  let h := hex 32 u in
  take 8 h ++ [x2d] ++ take 4 (drop 8 h) ++ [x2d] ++ take 4 (drop 12 h)
    ++ [x2d] ++ take 4 (drop 16 h) ++ [x2d] ++ drop 20 h.

Definition enc_string (s : string) : list byte :=
  [x22] ++ String.list_byte_of_string s ++ [x22].

Definition enc_pointer {A : Type} (enc : A → list byte) (p : option A) : list byte :=
  match p with
  | None => text "null"
  | Some a => enc a
  end.

Definition enc_Sender (s : Sender) : list byte :=
  text "{`id`:`" ++ uuid_String (Sender_ID s) ++ text "`,`name`:"
    ++ enc_string (Sender_Name s) ++ text "}".

Definition enc_Conversation (c : Conversation) : list byte :=
  text "{`id`:`" ++ uuid_String (Conversation_ID c) ++ text "`,`nickname`:"
    ++ enc_string (Conversation_Nickname c) ++ text "}".

Fixpoint enc_elements {A : Type} (enc : A → list byte) (l : list A) : list byte :=
  match l with
  | [] => []
  | [a] => enc a
  | a :: l' => enc a ++ [x2c] ++ enc_elements enc l'
  end.

Definition enc_Conversations (l : list Conversation) : list byte :=
  [x5b] ++ enc_elements enc_Conversation l ++ [x5d].

Definition enc_Message (m : Message) : list byte :=
  text "{`conversation`:" ++ enc_pointer enc_Conversation (Message_Conversation m)
    ++ text ",`sender`:" ++ enc_pointer enc_Sender (Message_Sender m)
    ++ text ",`text`:" ++ enc_string (Message_Text m) ++ text "}".

Definition enc_Operation (op : Operation) : list byte :=
  text "{`type`:" ++ enc_string (Operation_Type op)
    ++ text ",`message`:" ++ enc_pointer id (Operation_Message op) ++ text "}".

Definition enc_Error (e : Error) : list byte :=
  text "{`message`:" ++ enc_string (Error_Message e) ++ text "}".

Definition enc_Response (r : Response) : list byte :=
  text "{`status`:" ++ enc_string (Response_Status r)
    ++ text ",`operation_type`:" ++ enc_string (Response_OperationType r)
    ++ text ",`error`:" ++ enc_pointer enc_Error (Response_Error r)
    ++ text ",`message`:" ++ enc_pointer id (Response_Message r) ++ text "}".

(** A [Sender] document with only the keys that [f] has. *)
Definition enc_SenderFields (f : SenderFields) : list byte :=
  match field_id f, field_name f with
  | Some i, Some n =>
      text "{`id`:`" ++ uuid_String i ++ text "`,`name`:" ++ enc_string n ++ text "}"
  | Some i, None => text "{`id`:`" ++ uuid_String i ++ text "`}"
  | None, Some n => text "{`name`:" ++ enc_string n ++ text "}"
  | None, None => text "{}"
  end.

Definition is_space (b : byte) : bool :=
  bool_decide (b = x20 ∨ b = x09 ∨ b = x0a ∨ b = x0d).

Fixpoint skip_space (l : list byte) : list byte :=
  match l with
  | b :: l' => if is_space b then skip_space l' else l
  | [] => []
  end.

Definition trim (l : list byte) : list byte :=
  reverse (skip_space (reverse (skip_space l))).

(** Decode by looking the document up among the encodings of
    [vocabulary]. *)
Definition decode {A : Type} (enc : A → list byte) (vocabulary : list A)
    (b : list byte) : option A :=
  find (λ a, bool_decide (enc a = trim b)) vocabulary.

Definition alice : Sender := mkSender 10 "alice".
Definition bob : Sender := mkSender 11 "bob".

Definition senders : list SenderFields :=
  [ mkSenderFields (Some 10%N) (Some "alice");
    mkSenderFields (Some 11%N) (Some "bob");
    mkSenderFields (Some 12%N) (Some "carol");
    mkSenderFields None (Some "bob") ].

Definition named (nickname : string) : Conversation := mkConversation uuid_Nil nickname.

Definition requested : list Conversation :=
  [ named "general"; named "ghost"; named "" ].

(** The text that bob sends to "general", once the server has given
    that conversation the fourth token of the generator. *)
Definition hi : Message :=
  mkMessage (Some (mkConversation 4099 "general")) (Some bob) "hi".

Definition op (type : string) (raw : list byte) : Operation :=
  mkOperation type (Some raw).

Definition operations : list Operation :=
  (op AboutMeOperationType ∘ enc_SenderFields <$> senders)
    ++ (op CreateOperationType ∘ enc_Conversation <$> requested)
    ++ (op SubscribeOperationType ∘ enc_Conversation <$> requested)
    ++ [ op ListOperationType emptyJSON;
         op MessageOperationType (enc_Message hi) ].

Definition responses : list Response :=
  [ mkResponse "ok" ListOperationType None (Some (enc_Conversations []));
    mkResponse "ok" MessageOperationType None (Some (enc_Message hi)) ].

Definition ok (b : list byte) : list byte * option error := (b, None).

Definition env : Env := {|
  Unmarshal_Operation := decode enc_Operation operations;
  Unmarshal_Conversation := decode enc_Conversation requested;
  Unmarshal_Conversations := decode enc_Conversations [[]];
  Unmarshal_Message := decode enc_Message [hi];
  Unmarshal_Sender := decode enc_SenderFields senders;
  Unmarshal_Response := decode enc_Response responses;
  Marshal_Operation := ok ∘ enc_Operation;
  Marshal_Response := ok ∘ enc_Response;
  Marshal_Message := ok ∘ enc_Message;
  Marshal_Sender := ok ∘ enc_Sender;
  Marshal_Conversation := ok ∘ enc_Conversation;
  Marshal_Conversations := ok ∘ enc_Conversations;
  uuid_at := λ n, (4096 + N.of_nat n)%N
|}.

(** A frame as the server's writers put it on the wire. *)
Definition frame (payload : list byte) : list byte := payload ++ EOFBytes.

Definition request (type : string) (raw : list byte) : list byte :=
  frame (enc_Operation (op type raw)).

End sample.

(** ** A run of the server with three clients

    alice, bob and carol connect; alice creates "general"; alice and bob
    subscribe to it; bob then sends a message to it. *)

Module scenario.
Import common server system.

Definition hello (id : N) (name : string) : action :=
  Accept (sample.request AboutMeOperationType
            (sample.enc_SenderFields (mkSenderFields (Some id) (Some name)))).

Definition general : list byte := sample.enc_Conversation (sample.named "general").

Definition setup : list action :=
  [ hello 10 "alice";
    hello 11 "bob";
    hello 12 "carol";
    Serve 0 (sample.request CreateOperationType general) 0;
    Serve 0 (sample.request SubscribeOperationType general) 0;
    Serve 1 (sample.request SubscribeOperationType general) 0 ].

(** bob's message goes through [messagesChannel] to the delivery
    goroutine of client [receiver]. *)
Definition publish (receiver : nat) : action :=
  Serve 1 (sample.request MessageOperationType (sample.enc_Message sample.hi)) receiver.

(** The frame that carries the message to a subscriber. *)
Definition pushed : list byte :=
  sample.frame
    (sample.enc_Response
       (mkResponse "ok" MessageOperationType None (Some (sample.enc_Message sample.hi)))).

Definition received (sys : System) (k : nat) : bool :=
  bytes.Contains (sent_to sys k) pushed.

Definition state_after (acts : list action) : System :=
  default boot (run sample.env boot acts).

(** After the message went to [receiver] and that goroutine dealt with
    it: what each delivery goroutine holds, and which of the three
    connections have received the message. *)
Definition after_publish (receiver : nat) : option (list worker * list bool) :=
  match run sample.env boot (setup ++ [publish receiver; Deliver receiver]) with
  | Some sys => Some (subscriber <$> clients sys, received sys <$> [0; 1; 2])
  | None => None
  end.

End scenario.

(** ** Definitions used to state the properties *)

Module Spec.
Import common server.

Definition nicknames (g : Globals) : list string :=
  Conversation_Nickname <$> conversations g.

(** No nickname is registered twice, and [conversationsByNickname]
    has exactly the nicknames of [conversations] as its keys. *)
Definition registry_ok (g : Globals) : Prop :=
  NoDup (nicknames g)
  ∧ ∀ k, is_Some (conversationsByNickname g !! k) ↔ k ∈ nicknames g.

Definition already_exists (nickname : string) : error :=
  ErrorString ("conversation with nickname '" +:+ nickname +:+ "' already exists").

(** The nickname that [handleCreateConversation] goes on with. *)
Definition effective (g : Globals) (requested : string) : string :=
  if decide (requested = "") then Itoa (length (conversations g)) else requested.

(** The globals after a create that succeeded under [nickname]. *)
Definition register (env : Env) (g : Globals) (nickname : string) : Globals :=
  let created := mkConversation (uuid_at env (uuid_calls g)) nickname in
  mkGlobals (<[uuid_at env (uuid_calls g) := true]> (conversationIDs g))
    (conversations g ++ [created])
    (<[nickname := created]> (conversationsByNickname g))
    (S (uuid_calls g)).

(** The globals after a create that was rejected: a token was drawn. *)
Definition drawn (g : Globals) : Globals :=
  mkGlobals (conversationIDs g) (conversations g) (conversationsByNickname g)
    (S (uuid_calls g)).

(** The [Response] that [writeErrorResponse] builds for the text [s]. *)
Definition error_response (s : string) : Response :=
  mkResponse "error" "" (Some (mkError s)) (Some emptyJSON).

(** The [Response] that [writeOKResponse] builds. *)
Definition ok_response (message : list byte) (operationType : string) : Response :=
  mkResponse "ok" operationType None
    (Some (if decide (message ≠ []) then message else emptyJSON)).

(** A read of the client that ends on the deadline, with [data] in
    the buffer. *)
Definition timed_out (data : list byte) : client.event :=
  client.ConnRead data (Some ErrDeadlineExceeded).

End Spec.

(** ** Package [client], the issuer (src/unnamed/part_000)

    The functions that turn a command of the user into an operation on
    the wire. What [fmt.Scanf] read is an argument, and so is
    [strings.ToLower]. *)

Module issuer.
Import common client.





(** [getConversationByNickname]: the first conversation of the cache
    whose nickname equals [nickname] after [strings.ToLower] on both;
    without one, a pointer to an empty [Conversation] and an error. *)
Fixpoint getConversationByNickname (ToLower : string → string)
    (globalConversations : list Conversation) (nickname : string)
  : Conversation * option error :=
  match globalConversations with
  | [] =>
      (mkConversation uuid_Nil "",
       Some (ErrorString ("conversation with nickname " +:+ nickname +:+ " not found")))
  | conversation :: rest =>
      if decide (ToLower (Conversation_Nickname conversation) = ToLower nickname)
      then (conversation, None)
      else getConversationByNickname ToLower rest nickname
  end.

(** [sendMessage]; [scanned] is what [fmt.Scanf] returned for the
    text. The error of [getConversationByNickname] is overwritten
    unread by the next assignment of [err]. *)
Definition sendMessage (env : Env) (ToLower : string → string) (st : State)
    (conn : Conn) (convNickname : string) (scanned : string * option error)
  : Conn * option error :=
  let '(text, err) := scanned in
  match err with
  | Some e => (conn, Some e)
  | None =>
      let '(conversation, _) :=
        getConversationByNickname ToLower (globalConversations st) convNickname in
      let sender := clientInfo st in
      let message := mkMessage (Some conversation) (Some sender) text in
      let '(b, err) := Marshal_Message env message in
      match err with
      | Some _ => (conn, Some (ErrorString "marshaling error"))
      | None =>
          let operation := mkOperation MessageOperationType (Some b) in
          let '(conn, err) := writeJSONTo (Marshal_Operation env) conn operation in
          match err with
          | Some e => (conn, Some e)
          | None => (conn, None)
          end
      end
  end.

End issuer.

(** ** The concrete environment, with a larger vocabulary

    As [sample.env], and decoding in addition what [encoding/json]
    decodes from the empty object: a [Message] without conversation,
    sender and text, and the message operation that carries it; and the
    acknowledgement that the server sends for a message operation. *)

Module sample_more.
Import common.

Definition empty_message : Message := mkMessage None None "".

Definition acknowledgement : Response :=
  mkResponse "ok" MessageOperationType None (Some emptyJSON).

Definition env : Env := {|
  Unmarshal_Operation :=
    sample.decode sample.enc_Operation
      (sample.operations ++ [sample.op MessageOperationType emptyJSON]);
  Unmarshal_Conversation := Unmarshal_Conversation sample.env;
  Unmarshal_Conversations := Unmarshal_Conversations sample.env;
  Unmarshal_Message :=
    λ b, if decide (sample.trim b = emptyJSON) then Some empty_message
         else Unmarshal_Message sample.env b;
  Unmarshal_Sender := Unmarshal_Sender sample.env;
  Unmarshal_Response :=
    sample.decode sample.enc_Response (sample.responses ++ [acknowledgement]);
  Marshal_Operation := Marshal_Operation sample.env;
  Marshal_Response := Marshal_Response sample.env;
  Marshal_Message := Marshal_Message sample.env;
  Marshal_Sender := Marshal_Sender sample.env;
  Marshal_Conversation := Marshal_Conversation sample.env;
  Marshal_Conversations := Marshal_Conversations sample.env;
  uuid_at := uuid_at sample.env
|}.

End sample_more.

(** ** Further definitions used to state properties *)

Module Laws.
Import common server system Spec.

(** [n] calls of [ReadUntil] with the delimiter CR LF, one after the
    other on the same reader, as the loop of [handleConnection] makes
    them: the byte sequences returned, in order. *)
Fixpoint readFrames (n : nat) (r : Reader) : exec (list (list byte) * Reader) :=
  match n with
  | O => Done ([], r)
  | S n' =>
      match ReadUntil r EOFBytes with
      | Done ((b, _), r') =>
          match readFrames n' r' with
          | Done (bs, r'') => Done (b :: bs, r'')
          | Panics => Panics
          | OutOfFuel => OutOfFuel
          end
      | Panics => Panics
      | OutOfFuel => OutOfFuel
      end
  end.

(** The client's [writeJSONTo] called on each value of [vs] in turn,
    up to the first error. *)
Fixpoint writeJSONs {V : Type} (json_Marshal : V → list byte * option error)
    (conn : Conn) (vs : list V) : Conn * option error :=
  match vs with
  | [] => (conn, None)
  | v :: vs' =>
      let '(conn, err) := client.writeJSONTo json_Marshal conn v in
      match err with
      | Some e => (conn, Some e)
      | None => writeJSONs json_Marshal conn vs'
      end
  end.

(** What the server's [ReadUntil] calls return for payloads that the
    client wrote one after the other: the first payload with its
    terminator, and every later one between the second terminator of
    the one before it and its own. *)
Definition as_read (payloads : list (list byte)) : list (list byte) :=
  match payloads with
  | [] => []
  | b :: rest => (b ++ EOFBytes) :: ((λ b', EOFBytes ++ b' ++ EOFBytes) <$> rest)
  end.

(** The [switch] of the loop of [handleConnection]: the globals, the
    subscriptions, the response payload, the error and the message sent
    on [messagesChannel] that the handler of the operation leaves. *)
Definition dispatch (env : Env) (operation : Operation) (g : Globals)
    (subs : gmap N bool)
  : exec (Globals * gmap N bool * list byte * option error * option Message) :=
  if decide (Operation_Type operation = CreateOperationType) then
    match handleCreateConversation env operation g with
    | Done (g', err) => Done (g', subs, emptyJSON, err, None)
    | Panics => Panics
    | OutOfFuel => OutOfFuel
    end
  else if decide (Operation_Type operation = SubscribeOperationType) then
    match handleSubscribe env operation g subs with
    | Done (subs', err) => Done (g, subs', emptyJSON, err, None)
    | Panics => Panics
    | OutOfFuel => OutOfFuel
    end
  else if decide (Operation_Type operation = MessageOperationType) then
    match handleMessage env operation with
    | Done ((response, err), sent) => Done (g, subs, response, err, sent)
    | Panics => Panics
    | OutOfFuel => OutOfFuel
    end
  else if decide (Operation_Type operation = ListOperationType) then
    let '(response, err) := handleListConversations env operation g in
    Done (g, subs, response, err, None)
  else Done (g, subs, emptyJSON, None, None).

(** The end of a turn of the loop: the error response and [break], or
    the ok response and the next turn. *)
Definition answer (env : Env) (operation : Operation) (conn : Conn)
    (err : option error) (response : list byte) : Conn * control :=
  match err with
  | Some e => (writeErrorResponse env conn (error_Error e), Break)
  | None =>
      let '(conn', err) := writeOKResponse env conn response (Operation_Type operation) in
      match err with
      | Some e => (writeErrorResponse env conn' (error_Error e), Break)
      | None => (conn', Continue)
      end
  end.

(** Two readers that hold the same bytes and end on the same error,
    however the bytes are cut into chunks. *)
Definition same_bytes (r1 r2 : Reader) : Prop :=
  content r1 = content r2 ∧ final r1 = final r2.

Definition ids (g : Globals) : list N :=
  Conversation_ID <$> conversations g.

(** The two maps of the registry hold what the list of conversations
    holds: [conversationsByNickname] has each conversation under its
    nickname and nothing else, [conversationIDs] has each id and
    nothing else, no nickname occurs twice, and every id is one of the
    tokens drawn from the generator so far. *)
Definition registry_inv (env : Env) (g : Globals) : Prop :=
  NoDup (Conversation_Nickname <$> conversations g)
  ∧ (∀ n c, conversationsByNickname g !! n = Some c
            ↔ c ∈ conversations g ∧ Conversation_Nickname c = n)
  ∧ (∀ id, map_get (conversationIDs g) id = true ↔ id ∈ ids g)
  ∧ (∀ id, id ∈ ids g → ∃ k, k < uuid_calls g ∧ id = uuid_at env k).

(** Every id that a session listens on is the id of a registered
    conversation. *)
Definition subscriptions_registered (sys : System) : Prop :=
  ∀ j c id,
    clients sys !! j = Some c →
    map_get (conversationsToListenOn (session c)) id = true →
    id ∈ ids (globals sys).

(** The connection of a client is open exactly while its loop runs. *)
Definition open_while_running (sys : System) : Prop :=
  ∀ j c,
    clients sys !! j = Some c →
    (main c = Running ↔ closed (conn (session c)) = false).

(** The two properties above for one client. *)
Definition listens_on_registered (g : Globals) (c : Client) : Prop :=
  ∀ id, map_get (conversationsToListenOn (session c)) id = true → id ∈ ids g.

Definition open_iff_running (c : Client) : Prop :=
  main c = Running ↔ closed (conn (session c)) = false.

(** How one step of the server may change the globals: not at all, by
    drawing a token, or by registering a conversation under a nickname
    that was free. *)
Definition moves (env : Env) (g g' : Globals) : Prop :=
  g' = g ∨ g' = drawn g
  ∨ ∃ n, conversationsByNickname g !! n = None ∧ g' = register env g n.

(** With a generator that never repeats a token, no two conversations
    share an id. *)
Definition ids_distinct (env : Env) (g : Globals) : Prop :=
  (∀ m n, uuid_at env m = uuid_at env n → m = n) → NoDup (ids g).

Definition server_inv (env : Env) (sys : System) : Prop :=
  registry_inv env (globals sys)
  ∧ ids_distinct env (globals sys)
  ∧ subscriptions_registered sys
  ∧ open_while_running sys.

End Laws.

(** * Properties *)

(** ** The frame codec *)

Module FrameCodec.
Import common bytes.

Lemma cut_after_absent (d : byte) (l : list byte) :
  d ∉ l → cut_after d l = None.
Proof.
  induction l as [|b l IH]; intros Hd; simpl; [done|].
  apply not_elem_of_cons in Hd as [Hne Hl].
  rewrite decide_False by done. by rewrite IH.
Qed.

Lemma cut_after_first (d : byte) (q rest : list byte) :
  d ∉ q → cut_after d (q ++ d :: rest) = Some (q ++ [d], rest).
Proof.
  induction q as [|b q IH]; intros Hd; simpl.
  - by rewrite decide_True.
  - apply not_elem_of_cons in Hd as [Hne Hq].
    rewrite decide_False by done. by rewrite IH.
Qed.

Lemma cut_after_app (d : byte) (c l : list byte) :
  cut_after d (c ++ l) =
    match cut_after d c with
    | Some (p, rest) => Some (p, rest ++ l)
    | None =>
        match cut_after d l with
        | Some (p, rest) => Some (c ++ p, rest)
        | None => None
        end
    end.
Proof.
  induction c as [|b c IH]; simpl.
  - by destruct (cut_after d l) as [[??]|].
  - destruct (decide (b = d)); [done|].
    rewrite IH. destruct (cut_after d c) as [[??]|]; [done|].
    by destruct (cut_after d l) as [[??]|].
Qed.

(** Chunking is invisible to [ReadBytes]: what it returns and what it
    leaves depend on the concatenation of the chunks alone. *)
Lemma collect_found (d : byte) (chunks : list (list byte)) :
  ∀ acc p rest,
    cut_after d (concat chunks) = Some (p, rest) →
    ∃ chunks', collect d acc chunks = (acc ++ p, Some chunks')
               ∧ concat chunks' = rest.
Proof.
  induction chunks as [|c chunks IH]; intros acc p rest; simpl; [done|].
  rewrite cut_after_app.
  destruct (cut_after d c) as [[p' rest']|] eqn:Hc.
  - intros [= <- <-]. eauto.
  - destruct (cut_after d (concat chunks)) as [[p' rest']|] eqn:Hl; [|done].
    intros [= <- <-].
    destruct (IH (acc ++ c) p' rest' eq_refl) as (chunks' & -> & <-).
    exists chunks'. by rewrite (assoc_L (++)).
Qed.

Lemma collect_absent (d : byte) (chunks : list (list byte)) :
  ∀ acc,
    cut_after d (concat chunks) = None →
    collect d acc chunks = (acc ++ concat chunks, None).
Proof.
  induction chunks as [|c chunks IH]; intros acc; simpl.
  - by rewrite (right_id_L [] (++)).
  - rewrite cut_after_app.
    destruct (cut_after d c) as [[p' rest']|] eqn:Hc; [done|].
    destruct (cut_after d (concat chunks)) as [[p' rest']|] eqn:Hl; [done|].
    intros _. rewrite IH by done. by rewrite (assoc_L (++)).
Qed.

Lemma ReadBytes_found (r : Reader) (d : byte) (p rest : list byte) :
  cut_after d (content r) = Some (p, rest) →
  ∃ r', ReadBytes r d = ((p, None), r') ∧ content r' = rest ∧ final r' = final r.
Proof.
  intros H. unfold ReadBytes.
  destruct (collect_found d (pending r) [] p rest H) as (chunks' & -> & <-).
  eauto.
Qed.

Lemma ReadBytes_absent (r : Reader) (d : byte) :
  cut_after d (content r) = None →
  ReadBytes r d = ((content r, Some (final r)), mkReader [] (final r)).
Proof.
  intros H. unfold ReadBytes. by rewrite (collect_absent d (pending r) [] H).
Qed.

(** [Contains b sub] holds exactly when [sub] occurs in [b]. *)
Lemma Contains_spec (b sub : list byte) :
  Contains b sub = true ↔ ∃ pre post, b = pre ++ sub ++ post.
Proof.
  induction b as [|x b IH]; simpl.
  - destruct (decide (sub `prefix_of` [])) as [[k Hk]|Hn]; split; try done.
    + intros _. exists [], k. done.
    + intros (pre & post & H). destruct Hn.
      symmetry in H. apply app_eq_nil in H as [-> H].
      apply app_eq_nil in H as [-> ->]. done.
  - destruct (decide (sub `prefix_of` x :: b)) as [[k Hk]|Hn]; split; try done.
    + intros _. by exists [], k.
    + intros H. apply IH in H as (pre & post & ->). by exists (x :: pre), post.
    + intros (pre & post & H). destruct pre as [|y pre].
      * destruct Hn. exists post. done.
      * simpl in H. injection H as <- ->. apply IH. eauto.
Qed.

Lemma Contains_false (b sub : list byte) :
  Contains b sub = false → ∀ pre post, b ≠ pre ++ sub ++ post.
Proof.
  intros H pre post ->.
  assert (Contains (pre ++ sub ++ post) sub = true) by (apply Contains_spec; eauto).
  congruence.
Qed.

Lemma drop_terminator (l : list byte) (a b : byte) :
  drop (length (l ++ [a; b]) - 2) (l ++ [a; b]) = [a; b].
Proof.
  rewrite length_app. simpl.
  replace (length l + 2 - 2) with (length l) by lia.
  by rewrite drop_app_length.
Qed.

Lemma ends_with_terminator (l : list byte) :
  2 < length l →
  EOFBytes = drop (length l - length EOFBytes) l →
  ∃ pre, l = pre ++ EOFBytes.
Proof.
  intros _ H. set (n := length l - length EOFBytes) in *.
  exists (take n l). rewrite H. by rewrite take_drop.
Qed.

Lemma ReadUntil_loop_unfold (fuel : nat) (r : Reader) (delim : list byte)
    (lastChar : byte) (returnBytes : list byte) :
  ReadUntil_loop (S fuel) r delim lastChar returnBytes =
    let '((b, err), r') := ReadBytes r lastChar in
    match err with
    | Some _ => Done ((returnBytes, None), r')
    | None =>
        if decide (length delim < length (returnBytes ++ b)) then
          if decide (delim = drop (length (returnBytes ++ b) - length delim)
                               (returnBytes ++ b))
          then Done ((returnBytes ++ b, None), r')
          else ReadUntil_loop fuel r' delim lastChar (returnBytes ++ b)
        else ReadUntil_loop fuel r' delim lastChar (returnBytes ++ b)
    end.
Proof. reflexivity. Qed.

(** The loop, started with [acc] accumulated and [q] of the payload
    still on the stream. *)
Lemma ReadUntil_loop_frame (fuel : nat) :
  ∀ (q acc : list byte) (r : Reader) (rest : list byte),
    length q < fuel →
    acc ++ q ≠ [] →
    (∀ pre post, acc ++ q ≠ pre ++ EOFBytes ++ post) →
    content r = q ++ EOFBytes ++ rest →
    ∃ r', ReadUntil_loop fuel r EOFBytes x0a acc
            = Done ((acc ++ q ++ EOFBytes, None), r')
          ∧ content r' = rest ∧ final r' = final r.
Proof.
  induction fuel as [|fuel IH]; intros q acc r rest Hfuel Hne Hfree Hr; [lia|].
  rewrite ReadUntil_loop_unfold.
  destruct (decide (x0a ∈ q)) as [Hin|Hout].
  - apply list_elem_of_split_l in Hin as (q1 & q2 & -> & Hq1).
    assert (Hcut : cut_after x0a (content r)
                   = Some (q1 ++ [x0a], q2 ++ EOFBytes ++ rest)).
    { rewrite Hr, <- (assoc_L (++)). simpl. by apply cut_after_first. }
    destruct (ReadBytes_found r x0a _ _ Hcut) as (r1 & -> & Hr1 & Hf1).
    assert (Hnot : ¬ (2 < length (acc ++ q1 ++ [x0a])
                      ∧ EOFBytes = drop (length (acc ++ q1 ++ [x0a]) - length EOFBytes)
                                     (acc ++ q1 ++ [x0a]))).
    { intros [Hlen Hsuf].
      destruct (ends_with_terminator _ Hlen Hsuf) as [pre Hpre].
      apply (Hfree pre q2).
      rewrite (assoc_L (++) pre), <- Hpre, <- !(assoc_L (++)). done. }
    assert (Hgo : ∃ r', ReadUntil_loop fuel r1 EOFBytes x0a (acc ++ q1 ++ [x0a])
              = Done ((acc ++ (q1 ++ x0a :: q2) ++ EOFBytes, None), r')
              ∧ content r' = rest ∧ final r' = final r).
    { destruct (IH q2 (acc ++ q1 ++ [x0a]) r1 rest) as (r' & Hloop & ? & ?).
      - rewrite length_app in Hfuel. simpl in Hfuel. lia.
      - rewrite <- !(assoc_L (++)). simpl. done.
      - intros pre post. rewrite <- !(assoc_L (++)). simpl. apply Hfree.
      - done.
      - exists r'. rewrite Hloop. rewrite <- !(assoc_L (++)). simpl.
        split_and!; [done|done|congruence]. }
    simpl length at 1.
    destruct (decide (2 < length (acc ++ q1 ++ [x0a]))) as [Hlen|Hlen]; [|done].
    destruct (decide (EOFBytes = _)) as [Hsuf|Hsuf]; [|done].
    destruct Hnot. done.
  - assert (Hcut : cut_after x0a (content r) = Some (q ++ EOFBytes, rest)).
    { rewrite Hr. unfold EOFBytes.
      replace (q ++ [x0d; x0a] ++ rest) with ((q ++ [x0d]) ++ x0a :: rest)
        by (by rewrite <- (assoc_L (++))).
      rewrite cut_after_first.
      - by rewrite <- (assoc_L (++)).
      - rewrite elem_of_app, list_elem_of_singleton. intros [?|?]; done. }
    destruct (ReadBytes_found r x0a _ _ Hcut) as (r1 & -> & Hr1 & Hf1).
    simpl length at 1.
    rewrite decide_True.
    + rewrite decide_True; [eauto|].
      rewrite (assoc_L (++) acc q). unfold EOFBytes at 2 3 4.
      simpl length at 2. by rewrite drop_terminator.
    + rewrite (assoc_L (++)), length_app. simpl.
      destruct (acc ++ q); [done|]. simpl. lia.
Qed.

Lemma cut_after_split (d : byte) (l p rest : list byte) :
  cut_after d l = Some (p, rest) → l = p ++ rest ∧ 0 < length p.
Proof.
  revert p rest. induction l as [|b l IH]; intros p rest; simpl; [done|].
  destruct (decide (b = d)).
  - intros [= <- <-]. simpl. split; [done|lia].
  - destruct (cut_after d l) as [[p' rest']|]; [|done].
    intros [= <- <-]. destruct (IH p' rest' eq_refl) as [-> ?].
    simpl. split; [done|lia].
Qed.

(** The loop never runs out of the fuel that [ReadUntil] gives it, and
    the error it returns is always [nil]. *)
Lemma ReadUntil_loop_returns (fuel : nat) :
  ∀ (r : Reader) (delim : list byte) (lastChar : byte) (acc : list byte),
    length (content r) < fuel →
    ∃ out r', ReadUntil_loop fuel r delim lastChar acc = Done ((out, None), r').
Proof.
  induction fuel as [|fuel IH]; intros r delim lastChar acc Hfuel; [lia|].
  rewrite ReadUntil_loop_unfold.
  destruct (cut_after lastChar (content r)) as [[p rest]|] eqn:Hcut.
  - destruct (ReadBytes_found r lastChar p rest Hcut) as (r1 & -> & Hr1 & _).
    apply cut_after_split in Hcut as [Hl Hp].
    assert (length (content r1) < fuel).
    { rewrite Hr1. rewrite Hl, length_app in Hfuel. lia. }
    repeat case_decide; eauto.
  - rewrite (ReadBytes_absent r lastChar Hcut). eauto.
Qed.

Lemma ReadUntil_returns (r : Reader) (delim : list byte) :
  delim ≠ [] →
  ∃ out r', ReadUntil r delim = Done ((out, None), r').
Proof.
  intros Hd. unfold ReadUntil.
  destruct (last delim) as [lastChar|] eqn:Hlast.
  - apply ReadUntil_loop_returns. lia.
  - apply last_None in Hlast. done.
Qed.

(** C1 (as amended): for every non-empty payload without the
    terminator in it, and however the stream cuts payload, terminator
    and what follows into chunks, [ReadUntil] with the delimiter CR LF
    returns the payload followed by the terminator, byte for byte, with
    a [nil] error, and leaves on the stream exactly what follows the
    frame. *)
Theorem ReadUntil_returns_frame (payload rest : list byte) (r : Reader) :
  payload ≠ [] →
  Contains payload EOFBytes = false →
  content r = payload ++ EOFBytes ++ rest →
  ∃ r', ReadUntil r EOFBytes = Done ((payload ++ EOFBytes, None), r')
        ∧ content r' = rest.
Proof.
  intros Hne Hfree Hr. unfold ReadUntil. simpl last.
  destruct (ReadUntil_loop_frame (S (length (content r))) payload [] r rest)
    as (r' & Hloop & Hrest & _); try done.
  - rewrite Hr, length_app. lia.
  - by apply Contains_false.
  - eauto.
Qed.

Lemma ReadUntil_returns_frame_witness :
  let r := mkReader [[x61]; [x62; x0d]; [x0a; x63]] EOF in
  [x61; x62] ≠ []
  ∧ Contains [x61; x62] EOFBytes = false
  ∧ content r = [x61; x62] ++ EOFBytes ++ [x63]
  ∧ ∃ r', ReadUntil r EOFBytes = Done (([x61; x62] ++ EOFBytes, None), r')
          ∧ content r' = [x63].
Proof.
  split_and!; [discriminate|reflexivity|reflexivity|].
  apply (ReadUntil_returns_frame [x61; x62] [x63]);
    [discriminate|reflexivity|reflexivity].
Defined.

(** C1 as stated fails: the bytes returned for the payload "a",
    delivered in two chunks, end with the terminator. *)
Lemma ReadUntil_keeps_terminator :
  ¬ (∀ (payload : list byte) (r : Reader),
       Contains payload EOFBytes = false →
       content r = payload ++ EOFBytes →
       ∃ r', ReadUntil r EOFBytes = Done ((payload, None), r')).
Proof.
  intros H.
  destruct (H [x61] (mkReader [[x61; x0d]; [x0a]] EOF) eq_refl eq_refl) as [r' Hr'].
  vm_compute in Hr'. discriminate Hr'.
Qed.

(** C6: a zero-length frame is not returned on its own. [ReadUntil]
    reads on and returns it joined to the frame that follows; when the
    stream ends after it, the two terminator bytes come back; and at
    the end of the stream itself no error is reported. *)
Theorem ReadUntil_zero_length_frame :
  ReadUntil (mkReader [EOFBytes; sample.request ListOperationType emptyJSON] EOF) EOFBytes
    = Done ((EOFBytes ++ sample.request ListOperationType emptyJSON, None),
            mkReader [[]] EOF)
  ∧ ReadUntil (mkReader [EOFBytes] EOF) EOFBytes
    = Done ((EOFBytes, None), mkReader [] EOF)
  ∧ ReadUntil (mkReader [] EOF) EOFBytes = Done (([], None), mkReader [] EOF).
Proof. split_and!; vm_compute; reflexivity. Qed.
End FrameCodec.

(** ** The conversation registry *)

Module Registry.
Import common server Spec.

(** [handleCreateConversation] on a request that decodes. *)
Lemma handleCreateConversation_decoded (env : Env) (op : Operation)
    (raw : list byte) (c : Conversation) (g : Globals) :
  Operation_Message op = Some raw →
  Unmarshal_Conversation env raw = Some c →
  handleCreateConversation env op g =
    let nickname := effective g (Conversation_Nickname c) in
    match conversationsByNickname g !! nickname with
    | Some _ => Done (drawn g, Some (already_exists nickname))
    | None => Done (register env g nickname, None)
    end.
Proof.
  intros Hop Hraw. unfold handleCreateConversation, effective.
  rewrite Hop, Hraw. simpl.
  destruct (decide (Conversation_Nickname c = "")); simpl;
    by destruct (conversationsByNickname g !! _).
Qed.

Lemma initial_ok : registry_ok initial.
Proof.
  split; [constructor|]. intros k. unfold nicknames. simpl.
  rewrite lookup_empty, elem_of_nil. split; [by intros [? ?]|done].
Qed.

Lemma register_ok (env : Env) (g : Globals) (nickname : string) :
  registry_ok g →
  conversationsByNickname g !! nickname = None →
  registry_ok (register env g nickname).
Proof.
  intros [Hnd Hdom] Hfree.
  assert (nickname ∉ nicknames g) as Hnotin.
  { intros Hin. apply Hdom in Hin as [? ?]. congruence. }
  unfold registry_ok, nicknames, register in *. simpl.
  rewrite fmap_app. simpl. split.
  - apply NoDup_app. split_and!; [done| |apply NoDup_singleton].
    intros x Hx ->%list_elem_of_singleton. done.
  - intros k. rewrite elem_of_app, list_elem_of_singleton, <- Hdom.
    destruct (decide (nickname = k)) as [->|Hne].
    + rewrite lookup_insert_eq. split; eauto.
    + rewrite lookup_insert_ne by done. split; [eauto|]. intros [?|?]; [done|congruence].
Qed.

(** Every create keeps the nicknames of the registry distinct. *)
Lemma handleCreateConversation_ok (env : Env) (op : Operation) (g g' : Globals)
    (err : option error) :
  registry_ok g →
  handleCreateConversation env op g = Done (g', err) →
  registry_ok g'.
Proof.
  intros Hok H.
  destruct (Operation_Message op) as [raw|] eqn:Hop;
    [destruct (Unmarshal_Conversation env raw) as [c|] eqn:Hraw|].
  - rewrite (handleCreateConversation_decoded env op raw c g Hop Hraw) in H.
    simpl in H.
    destruct (conversationsByNickname g !! _) eqn:Hl; injection H as <- <-.
    + done.
    + by apply register_ok.
  - unfold handleCreateConversation in H. rewrite Hop, Hraw in H.
    by injection H as <- <-.
  - unfold handleCreateConversation in H. by rewrite Hop in H.
Qed.

Lemma count_fresh (n : string) (l : list Conversation) :
  n ∉ Conversation_Nickname <$> l →
  filter (λ c, Conversation_Nickname c = n) l = [].
Proof.
  induction l as [|c l IH]; simpl; [done|].
  intros [Hne Hl]%not_elem_of_cons.
  rewrite filter_cons_False by done. by apply IH.
Qed.

(** C4 (as amended): for every non-empty nickname [n] that the
    registry does not hold, the first create with [n] succeeds, the
    second fails with the error that says the nickname already exists
    and leaves the list of conversations as it is, and afterwards
    exactly one conversation is called [n]; and every create, whatever
    its outcome, keeps the nicknames of the registry distinct. *)
Theorem create_twice (env : Env) (op : Operation) (raw : list byte)
    (c : Conversation) (g : Globals) :
  Operation_Message op = Some raw →
  Unmarshal_Conversation env raw = Some c →
  Conversation_Nickname c ≠ "" →
  registry_ok g →
  Conversation_Nickname c ∉ nicknames g →
  let n := Conversation_Nickname c in
  (∃ g1 g2,
      handleCreateConversation env op g = Done (g1, None)
      ∧ handleCreateConversation env op g1
        = Done (g2, Some (ErrorString
                  ("conversation with nickname '" +:+ n +:+ "' already exists")))
      ∧ conversations g2 = conversations g1
      ∧ length (filter (λ c', Conversation_Nickname c' = n) (conversations g2)) = 1
      ∧ NoDup (nicknames g2))
  ∧ (∀ op' g' g'' err,
        registry_ok g' →
        handleCreateConversation env op' g' = Done (g'', err) →
        registry_ok g'').
Proof.
  intros Hop Hraw Hne Hok Hfresh n. split.
  - assert (conversationsByNickname g !! n = None) as Hfree.
    { destruct Hok as [_ Hdom]. apply eq_None_not_Some. by rewrite Hdom. }
    exists (register env g n), (drawn (register env g n)).
    rewrite !(handleCreateConversation_decoded env op raw c _ Hop Hraw).
    unfold effective. rewrite !decide_False by done. fold n.
    rewrite Hfree. split; [done|].
    assert (Hok1 : registry_ok (register env g n)) by by apply register_ok.
    simpl. rewrite lookup_insert_eq. split_and!; [done|done| |apply Hok1].
    rewrite filter_app, (count_fresh n (conversations g) Hfresh). simpl.
    by rewrite filter_cons_True.
  - intros op' g' g'' err Hok'. by apply handleCreateConversation_ok.
Qed.

Lemma create_twice_witness :
  let op := sample.op CreateOperationType (sample.enc_Conversation (sample.named "general")) in
  Operation_Message op = Some (sample.enc_Conversation (sample.named "general"))
  ∧ Unmarshal_Conversation sample.env (sample.enc_Conversation (sample.named "general"))
    = Some (sample.named "general")
  ∧ registry_ok initial
  ∧ ∃ g1 g2,
      handleCreateConversation sample.env op initial = Done (g1, None)
      ∧ handleCreateConversation sample.env op g1
        = Done (g2, Some (ErrorString
                  "conversation with nickname 'general' already exists"))
      ∧ conversations g2 = conversations g1
      ∧ length (filter (λ c', Conversation_Nickname c' = "general") (conversations g2)) = 1
      ∧ NoDup (nicknames g2).
Proof.
  split_and!; [reflexivity|vm_compute; reflexivity|apply initial_ok|].
  apply (create_twice sample.env
           (sample.op CreateOperationType (sample.enc_Conversation (sample.named "general")))
           (sample.enc_Conversation (sample.named "general"))
           (sample.named "general") initial).
  - reflexivity.
  - vm_compute; reflexivity.
  - discriminate.
  - apply initial_ok.
  - vm_compute. apply not_elem_of_nil.
Defined.

(** C4 as stated fails at the empty nickname: on the empty registry
    both creates succeed, the first under the nickname "0" and the
    second under "1", and no conversation is called "". *)
Lemma create_twice_empty_nickname :
  let op := sample.op CreateOperationType (sample.enc_Conversation (sample.named "")) in
  ∃ g1 g2,
    handleCreateConversation sample.env op initial = Done (g1, None)
    ∧ handleCreateConversation sample.env op g1 = Done (g2, None)
    ∧ conversations g2 = [mkConversation 4096 "0"; mkConversation 4097 "1"]
    ∧ filter (λ c', Conversation_Nickname c' = "") (conversations g2) = [].
Proof.
  exists (register sample.env initial "0"),
         (register sample.env (register sample.env initial "0") "1").
  split_and!; vm_compute; reflexivity.
Qed.

(** C5: a create whose requested nickname is empty goes on with the
    decimal string of the number of conversations in the registry: it
    registers the new conversation under that nickname, or reports
    that very nickname as taken; with two conversations in the
    registry the nickname is "2". *)
Theorem create_fallback_nickname (env : Env) (op : Operation) (raw : list byte)
    (c : Conversation) (g : Globals) :
  Operation_Message op = Some raw →
  Unmarshal_Conversation env raw = Some c →
  Conversation_Nickname c = "" →
  let nickname := Itoa (length (conversations g)) in
  let created := mkConversation (uuid_at env (uuid_calls g)) nickname in
  (conversationsByNickname g !! nickname = None →
   ∃ g', handleCreateConversation env op g = Done (g', None)
         ∧ conversations g' = conversations g ++ [created]
         ∧ conversationsByNickname g' !! nickname = Some created)
  ∧ (is_Some (conversationsByNickname g !! nickname) →
     ∃ g', handleCreateConversation env op g
           = Done (g', Some (ErrorString
                     ("conversation with nickname '" +:+ nickname +:+ "' already exists")))
           ∧ conversations g' = conversations g)
  ∧ (length (conversations g) = 2 → nickname = "2").
Proof.
  intros Hop Hraw Hempty nickname created.
  rewrite (handleCreateConversation_decoded env op raw c g Hop Hraw).
  unfold effective. rewrite decide_True by done. fold nickname. cbv zeta.
  split_and!.
  - intros ->. exists (register env g nickname). simpl.
    by rewrite lookup_insert_eq.
  - intros [x ->]. by exists (drawn g).
  - unfold nickname. by intros ->.
Qed.

Lemma create_fallback_nickname_witness :
  let op := sample.op CreateOperationType (sample.enc_Conversation (sample.named "")) in
  let g := mkGlobals {[4096%N := true; 4097%N := true]}
             [mkConversation 4096 "general"; mkConversation 4097 "ghost"]
             {["general" := mkConversation 4096 "general";
               "ghost" := mkConversation 4097 "ghost"]} 2 in
  Operation_Message op = Some (sample.enc_Conversation (sample.named ""))
  ∧ Unmarshal_Conversation sample.env (sample.enc_Conversation (sample.named ""))
    = Some (sample.named "")
  ∧ Conversation_Nickname (sample.named "") = ""
  ∧ length (conversations g) = 2
  ∧ conversationsByNickname g !! "2" = None
  ∧ ∃ g', handleCreateConversation sample.env op g = Done (g', None)
          ∧ conversations g' = conversations g ++ [mkConversation 4098 "2"]
          ∧ conversationsByNickname g' !! "2" = Some (mkConversation 4098 "2").
Proof.
  split_and!; [reflexivity|vm_compute; reflexivity|reflexivity|reflexivity
              |vm_compute; reflexivity|].
  apply (create_fallback_nickname sample.env
           (sample.op CreateOperationType (sample.enc_Conversation (sample.named "")))
           (sample.enc_Conversation (sample.named "")) (sample.named "")).
  - reflexivity.
  - vm_compute; reflexivity.
  - reflexivity.
  - vm_compute; reflexivity.
Defined.
End Registry.

(** ** The session handler *)

Module SessionHandler.
Import common server Spec.

(** [writeErrorResponse] sends one frame, the encoded error response
    and the terminator, and closes the connection. *)
Lemma writeErrorResponse_open (env : Env) (conn : Conn) (s : string) :
  closed conn = false →
  writeErrorResponse env conn s
  = mkConn (written conn ++ (Marshal_Response env (error_response s)).1 ++ EOFBytes) true.
Proof.
  intros Hopen. unfold writeErrorResponse, error_response. simpl.
  destruct (Marshal_Response env _) as [responseBytes err]. simpl.
  unfold Conn_Write. rewrite Hopen. simpl.
  unfold Conn_Close. simpl. by rewrite <- (assoc_L (++)).
Qed.

Lemma writeErrorResponse_closes (env : Env) (conn : Conn) (s : string) :
  closed (writeErrorResponse env conn s) = true.
Proof.
  unfold writeErrorResponse.
  destruct (Marshal_Response env _) as [responseBytes err].
  destruct (Conn_Write conn responseBytes) as [conn1 ?].
  by destruct (Conn_Write conn1 EOFBytes) as [conn2 ?].
Qed.

(** [writeOKResponse] sends one frame, the encoded response and one
    terminator, or nothing at all. *)
Lemma writeOKResponse_frame (env : Env) (conn conn' : Conn) (message : list byte)
    (operationType : string) :
  writeOKResponse env conn message operationType = (conn', None) →
  written conn'
  = written conn ++ (Marshal_Response env (ok_response message operationType)).1
      ++ EOFBytes
  ∧ closed conn' = false.
Proof.
  unfold writeOKResponse, ok_response.
  destruct (decide (operationType ≠ "")) as [?|Hn];
    [|apply dec_stable in Hn; subst operationType];
    destruct (decide (message ≠ [])); simpl;
    (destruct (Marshal_Response env _) as [responseBytes [e|]]; simpl; [done|]);
    unfold Conn_Write; (destruct (closed conn) eqn:Hc; simpl; [done|]);
    by intros [= <-].
Qed.

(** C2 (as amended): when the next frame of an open session is a
    subscribe operation that names a nickname absent from the
    registry, the server sends one error response whose message holds
    that nickname, closes the connection and leaves the session loop:
    the registry and the subscriptions are as before, and what follows
    on the stream is not read. *)
Theorem subscribe_unknown_ends_session (env : Env) (fuel : nat) (g : Globals)
    (s : Session) (r r' : Reader) (request raw : list byte) (op : Operation)
    (c : Conversation) (sent : list Message) :
  ReadUntil r EOFBytes = Done ((request, None), r') →
  Unmarshal_Operation env request = Some op →
  Operation_Type op = SubscribeOperationType →
  Operation_Message op = Some raw →
  Unmarshal_Conversation env raw = Some c →
  conversationsByNickname g !! Conversation_Nickname c = None →
  closed (conn s) = false →
  let text := "conversation '" +:+ Conversation_Nickname c +:+ "' does not exist" in
  let response := mkResponse "error" "" (Some (mkError text)) (Some emptyJSON) in
  sessionLoop (S fuel) env g s r sent
  = Done (g,
          mkSession
            (mkConn (written (conn s) ++ (Marshal_Response env response).1 ++ EOFBytes)
               true)
            (conversationsToListenOn s),
          r', sent)
  ∧ ∃ pre post, text = pre +:+ Conversation_Nickname c +:+ post.
Proof.
  intros Hread Hop Htype Hmsg Hraw Hfree Hopen text response. split; [|by eexists _, _].
  simpl. rewrite Hread. rewrite decide_False by done.
  unfold serveRequest, getOperation. rewrite Hop, Htype. simpl.
  unfold handleSubscribe. rewrite Hmsg, Hraw, Hfree. simpl.
  rewrite (writeErrorResponse_open env (conn s) _ Hopen).
  by rewrite (right_id_L [] (++)).
Qed.

Lemma subscribe_unknown_ends_session_witness :
  let ghost := sample.enc_Conversation (sample.named "ghost") in
  let request := sample.request SubscribeOperationType ghost in
  let rest := sample.request ListOperationType emptyJSON in
  let r := mkReader [request ++ rest] EOF in
  let s := mkSession (mkConn [] false) ∅ in
  ReadUntil r EOFBytes = Done ((request, None), mkReader [rest] EOF)
  ∧ Unmarshal_Operation sample.env request = Some (sample.op SubscribeOperationType ghost)
  ∧ Unmarshal_Conversation sample.env ghost = Some (sample.named "ghost")
  ∧ conversationsByNickname initial !! "ghost" = None
  ∧ sessionLoop 1 sample.env initial s r []
    = Done (initial,
            mkSession
              (mkConn
                 ([] ++ (Marshal_Response sample.env
                           (mkResponse "error" "" (Some (mkError
                              ("conversation '" +:+ "ghost" +:+ "' does not exist")))
                              (Some emptyJSON))).1 ++ EOFBytes)
                 true)
              ∅,
            mkReader [rest] EOF, []).
Proof.
  split_and!; [vm_compute; reflexivity|vm_compute; reflexivity|vm_compute; reflexivity
              |reflexivity|].
  refine (proj1 (subscribe_unknown_ends_session sample.env 0 initial
                   (mkSession (mkConn [] false) ∅) _ _ _
                   (sample.enc_Conversation (sample.named "ghost"))
                   (sample.op SubscribeOperationType
                      (sample.enc_Conversation (sample.named "ghost")))
                   (sample.named "ghost") [] _ _ _ _ _ _ _));
    [vm_compute; reflexivity|vm_compute; reflexivity|reflexivity|reflexivity
    |vm_compute; reflexivity|reflexivity|reflexivity].
Defined.

(** C2 as stated fails: after the subscribe to "ghost" the connection
    is closed and the loop has returned; the list operation that
    follows on the same connection is never read or answered. *)
Lemma subscribe_ghost_closes_connection :
  let request :=
    sample.request SubscribeOperationType (sample.enc_Conversation (sample.named "ghost")) in
  let rest := sample.request ListOperationType emptyJSON in
  sessionLoop 10 sample.env initial (mkSession (mkConn [] false) ∅)
    (mkReader [request ++ rest] EOF) []
  = Done (initial,
          mkSession
            (mkConn
               (sample.frame (sample.enc_Response
                  (error_response "conversation 'ghost' does not exist")))
               true)
            ∅,
          mkReader [rest] EOF, []).
Proof. vm_compute. reflexivity. Qed.

(** C10: when the handshake payload decodes and has no id, the
    identity carries the token that this call drew from the generator,
    a token that no earlier call returned when the generator never
    repeats itself; an id in the payload replaces that token. *)
Theorem ParseClientAboutMe_identity (env : Env) (b : list byte) (g : Globals)
    (f : SenderFields) :
  Unmarshal_Sender env b = Some f →
  let token := uuid_at env (uuid_calls g) in
  ∃ aboutClient g',
    ParseClientAboutMe env b g = ((aboutClient, None), g')
    ∧ uuid_calls g' = S (uuid_calls g)
    ∧ (field_id f = None → Sender_ID aboutClient = token)
    ∧ (∀ id, field_id f = Some id → Sender_ID aboutClient = id)
    ∧ ((∀ m n, uuid_at env m = uuid_at env n → m = n) →
       ∀ k, k < uuid_calls g → uuid_at env k ≠ token).
Proof.
  intros Hb token. unfold ParseClientAboutMe. simpl. rewrite Hb.
  eexists _, _. split_and!; [reflexivity|reflexivity| | |].
  - by intros ->.
  - by intros id ->.
  - intros Hinj k Hk Heq. apply Hinj in Heq. lia.
Qed.

Lemma ParseClientAboutMe_identity_witness :
  let b := sample.text "{`name`:`bob`}" in
  Unmarshal_Sender sample.env b = Some (mkSenderFields None (Some "bob"))
  ∧ ∃ aboutClient g',
      ParseClientAboutMe sample.env b initial = ((aboutClient, None), g')
      ∧ Sender_ID aboutClient = 4096%N.
Proof.
  split; [vm_compute; reflexivity|].
  destruct (ParseClientAboutMe_identity sample.env (sample.text "{`name`:`bob`}")
              initial (mkSenderFields None (Some "bob")))
    as (aboutClient & g' & Hparse & _ & Hfresh & _); [vm_compute; reflexivity|].
  exists aboutClient, g'. split; [exact Hparse|exact (Hfresh eq_refl)].
Defined.

(** The identity that [handleConnection] records for the session is
    the one that [ParseClientAboutMe] returns. *)
Lemma handshake_identity (env : Env) (request : list byte) (g g' : Globals)
    (conn conn' : Conn) (identity : ClientAboutMe) :
  handshake env request None g conn = Done (g', conn', Some identity) →
  ∃ op raw,
    Unmarshal_Operation env request = Some op
    ∧ Operation_Message op = Some raw
    ∧ ParseClientAboutMe env raw g = ((identity, None), g').
Proof.
  unfold handshake, getOperation.
  destruct (Unmarshal_Operation env request) as [op|]; [|discriminate].
  destruct (Operation_Message op) as [raw|] eqn:Hraw; [|discriminate].
  destruct (ParseClientAboutMe env raw g) as [[aboutClient [e|]] g1] eqn:Hparse;
    [discriminate|].
  destruct (sendAboutMeResponse env conn aboutClient) as [conn1 [e|]]; [discriminate|].
  intros [= <- <- <-]. by exists op, raw.
Qed.
End SessionHandler.

(** ** The frame writers *)

Module FrameWriters.
Import common.

(** [writeJSONTo] of the client sends the encoding followed by two
    terminators. *)
Lemma writeJSONTo_written {V : Type} (json_Marshal : V → list byte * option error)
    (conn : Conn) (v : V) (b : list byte) :
  json_Marshal v = (b, None) →
  closed conn = false →
  client.writeJSONTo json_Marshal conn v
  = (mkConn (written conn ++ b ++ EOFBytes ++ EOFBytes) false, None).
Proof.
  intros Hb Hopen. unfold client.writeJSONTo, Conn_Write.
  rewrite Hb, Hopen. simpl. by rewrite <- !(assoc_L (++)).
Qed.

(** C8: the client's writer does not stop after one terminator. For
    the list operation it puts the encoding and then CR LF CR LF on
    the wire, where the server's [writeOKResponse] puts the encoding
    and one CR LF. *)
Theorem writeJSONTo_list_operation :
  let operation := sample.op ListOperationType emptyJSON in
  client.writeJSONTo (Marshal_Operation sample.env) (mkConn [] false) operation
  = (mkConn (sample.text "{`type`:`list`,`message`:{}}" ++ [x0d; x0a; x0d; x0a]) false,
     None)
  ∧ server.writeOKResponse sample.env (mkConn [] false) emptyJSON ListOperationType
    = (mkConn (sample.enc_Response
                 (mkResponse "ok" ListOperationType None (Some emptyJSON))
               ++ [x0d; x0a]) false,
       None).
Proof. split; vm_compute; reflexivity. Qed.
End FrameWriters.

(** ** The client's receive loop *)

Module Receiver.
Import common client Spec.

Lemma handleIncoming_timed_out (env : Env) (data : list byte) (events : list event)
    (st : State) :
  handleIncoming env (timed_out data :: events) st = handleIncoming env events st.
Proof. reflexivity. Qed.

(** C9: reads that time out while nothing is ready on [quit] do not
    end the receive loop and change nothing. After any number of them
    the loop goes on with its next turn, which looks at [quit] and then
    reads again; while only such reads happen the loop is still
    receiving; and it returns at the first turn that finds [quit]
    ready. *)
Theorem handleIncoming_retries (env : Env) (reads : list (list byte))
    (events : list event) (st : State) :
  handleIncoming env ((timed_out <$> reads) ++ events) st = handleIncoming env events st
  ∧ handleIncoming env (timed_out <$> reads) st = StillReceiving st
  ∧ handleIncoming env ((timed_out <$> reads) ++ [QuitRequested]) st = Ended Returned st.
Proof.
  assert (Hgo : ∀ evs, handleIncoming env ((timed_out <$> reads) ++ evs) st
                       = handleIncoming env evs st).
  { intros evs. induction reads as [|data reads IH]; [done|].
    simpl fmap. simpl app. by rewrite handleIncoming_timed_out. }
  split_and!.
  - apply Hgo.
  - rewrite <- (right_id_L [] (++) (timed_out <$> reads)). by rewrite Hgo.
  - by rewrite Hgo.
Qed.
End Receiver.

(** ** The broadcast router *)

Module Router.
Import common server system.





(** A message sent on [messagesChannel] reaches the one delivery
    goroutine that receives it: no other goroutine comes to hold it. *)
Lemma publish_reaches_one (env : Env) (sys sys' : System) (i : nat)
    (request : list byte) (receiver k : nat) :
  step env sys (Serve i request receiver) = Some sys' →
  k ≠ receiver →
  holds sys' k = holds sys k.
Proof.
  destruct sys as [g cs [|]]; [done|].
  unfold step. cbn [crashed clients globals].
  destruct (cs !! i) as [[s [| |] t]|] eqn:Hi; try done.
  assert (Hins : ∀ g' s' ph,
    holds (mkSystem g' (<[i := mkClient s' ph t]> cs) false) k
    = holds (mkSystem g cs false) k).
  { intros g' s' ph. unfold holds. simpl.
    destruct (decide (k = i)) as [->|Hne].
    - rewrite list_lookup_insert_eq by (by eapply lookup_lt_Some). by rewrite Hi.
    - by rewrite list_lookup_insert_ne. }
  destruct (serveRequest env request g s) as [[[[g' s'] sent] ctl]| |]; [| |done].
  - destruct sent as [m|].
    + destruct (hand_over receiver m _) as [cs'|] eqn:Hh; [|done].
      intros [= <-] Hne. rewrite <- (Hins g' s' (match ctl with Continue => Running | Break => Leaving end)).
      unfold holds. simpl. unfold hand_over in Hh.
      destruct (_ !! receiver) as [[s1 ph1 [| |]]|]; try done.
      injection Hh as <-. by rewrite list_lookup_insert_ne.
    + intros [= <-] _. apply Hins.
  - by intros [= <-].
Qed.

(** C3: alice and bob are both subscribed to "general" when bob sends
    a message to it. The message goes to one delivery goroutine. When
    that is alice's, only alice receives it; when it is bob's, only
    bob; when it is carol's, who is not subscribed, nobody does. In
    each case no goroutine holds the message afterwards, and the two
    subscribers never both receive it. *)
Theorem fan_out_reaches_one_subscriber :
  subscribed (scenario.state_after scenario.setup) 0 4099 = true
  ∧ subscribed (scenario.state_after scenario.setup) 1 4099 = true
  ∧ subscribed (scenario.state_after scenario.setup) 2 4099 = false
  ∧ scenario.after_publish 0 = Some ([Idle; Idle; Idle], [true; false; false])
  ∧ scenario.after_publish 1 = Some ([Idle; Idle; Idle], [false; true; false])
  ∧ scenario.after_publish 2 = Some ([Idle; Idle; Idle], [false; false; false]).
Proof. split_and!; vm_compute; reflexivity. Qed.

End Router.

(** ** More on the frame codec *)

Module FrameCodecMore.
Import common bytes Laws.

(** [ReadBytes] sees the bytes, not the chunks. *)
Lemma ReadBytes_same_bytes (r1 r2 : Reader) (d : byte) :
  same_bytes r1 r2 →
  (ReadBytes r1 d).1 = (ReadBytes r2 d).1
  ∧ same_bytes (ReadBytes r1 d).2 (ReadBytes r2 d).2.
Proof.
  intros [Hc Hf].
  destruct (cut_after d (content r1)) as [[p rest]|] eqn:Hcut.
  - destruct (FrameCodec.ReadBytes_found r1 d p rest Hcut) as (r1' & -> & ? & ?).
    rewrite Hc in Hcut.
    destruct (FrameCodec.ReadBytes_found r2 d p rest Hcut) as (r2' & -> & ? & ?).
    simpl. unfold same_bytes. split; [done|]. split; congruence.
  - rewrite (FrameCodec.ReadBytes_absent r1 d Hcut).
    rewrite Hc in Hcut. rewrite (FrameCodec.ReadBytes_absent r2 d Hcut).
    simpl. unfold same_bytes. simpl. rewrite Hc, Hf. done.
Qed.

Lemma ReadUntil_loop_same_bytes (fuel : nat) :
  ∀ (r1 r2 : Reader) (delim : list byte) (lastChar : byte) (acc : list byte),
    same_bytes r1 r2 →
    match ReadUntil_loop fuel r1 delim lastChar acc,
          ReadUntil_loop fuel r2 delim lastChar acc with
    | Done (out1, r1'), Done (out2, r2') => out1 = out2 ∧ same_bytes r1' r2'
    | Panics, Panics => True
    | OutOfFuel, OutOfFuel => True
    | _, _ => False
    end.
Proof.
  induction fuel as [|fuel IH]; intros r1 r2 delim lastChar acc Hsame; [done|].
  rewrite !FrameCodec.ReadUntil_loop_unfold.
  destruct (ReadBytes_same_bytes r1 r2 lastChar Hsame) as [Hout Hrest].
  destruct (ReadBytes r1 lastChar) as [[b1 e1] r1'].
  destruct (ReadBytes r2 lastChar) as [[b2 e2] r2'].
  simpl in Hout, Hrest. injection Hout as <- <-.
  destruct e1; [done|].
  repeat case_decide; try done; by apply IH.
Qed.

(** X1: on every stream and for every non-empty delimiter, [ReadUntil]
    returns, and the error it returns is [nil]: the end of the stream
    and a failure of the transport are not reported. *)
Theorem ReadUntil_error_is_nil (r : Reader) (delim : list byte) :
  delim ≠ [] →
  ∃ out r', ReadUntil r delim = Done ((out, None), r').
Proof.
  intros Hd. unfold ReadUntil.
  destruct (last delim) as [lastChar|] eqn:Hlast.
  - apply FrameCodec.ReadUntil_loop_returns. lia.
  - apply last_None in Hlast. done.
Qed.

Lemma ReadUntil_error_is_nil_witness :
  EOFBytes ≠ []
  ∧ ∃ out r', ReadUntil (mkReader [[x61; x62]] (ErrorString "connection reset")) EOFBytes
              = Done ((out, None), r').
Proof.
  split; [discriminate|].
  apply (ReadUntil_error_is_nil (mkReader [[x61; x62]] (ErrorString "connection reset"))
           EOFBytes).
  discriminate.
Defined.

(** X2: the bytes that [ReadUntil] returns depend on the bytes of the
    stream alone, not on the chunks in which they arrive, and so do the
    bytes it leaves on the stream. *)
Theorem ReadUntil_chunking (r1 r2 : Reader) (delim : list byte) :
  delim ≠ [] →
  content r1 = content r2 →
  final r1 = final r2 →
  ∃ out r1' r2',
    ReadUntil r1 delim = Done ((out, None), r1')
    ∧ ReadUntil r2 delim = Done ((out, None), r2')
    ∧ content r1' = content r2'.
Proof.
  intros Hd Hc Hf.
  destruct (FrameCodec.ReadUntil_returns r1 delim Hd) as (out1 & r1' & H1).
  destruct (FrameCodec.ReadUntil_returns r2 delim Hd) as (out2 & r2' & H2).
  exists out1, r1', r2'. split; [done|].
  unfold ReadUntil in *. destruct (last delim) as [lastChar|]; [|done].
  pose proof (ReadUntil_loop_same_bytes (S (length (content r1))) r1 r2 delim lastChar []
                (conj Hc Hf)) as Hsame.
  rewrite <- Hc in H2 |- *. rewrite H1, H2 in Hsame.
  destruct Hsame as [[= ->] [? ?]]. split; [exact H2|done].
Qed.

Lemma ReadUntil_chunking_witness :
  let r1 := mkReader [[x61; x0d; x0a; x62]] EOF in
  let r2 := mkReader [[x61]; [x0d]; [x0a]; [x62]] EOF in
  EOFBytes ≠ []
  ∧ content r1 = content r2
  ∧ final r1 = final r2
  ∧ ∃ out r1' r2',
      ReadUntil r1 EOFBytes = Done ((out, None), r1')
      ∧ ReadUntil r2 EOFBytes = Done ((out, None), r2')
      ∧ content r1' = content r2'.
Proof.
  split_and!; [discriminate|reflexivity|reflexivity|].
  apply (ReadUntil_chunking (mkReader [[x61; x0d; x0a; x62]] EOF)
           (mkReader [[x61]; [x0d]; [x0a]; [x62]] EOF) EOFBytes);
    [discriminate|reflexivity|reflexivity].
Defined.

Lemma ReadUntil_loop_prefix (fuel : nat) :
  ∀ (r : Reader) (delim : list byte) (lastChar : byte) (acc out : list byte)
    (err : option error) (r' : Reader),
    ReadUntil_loop fuel r delim lastChar acc = Done ((out, err), r') →
    out ++ content r' = acc ++ content r
    ∨ (content r' = [] ∧ out `prefix_of` acc ++ content r).
Proof.
  induction fuel as [|fuel IH]; intros r delim lastChar acc out err r'; [done|].
  rewrite FrameCodec.ReadUntil_loop_unfold.
  destruct (cut_after lastChar (content r)) as [[p rest]|] eqn:Hcut.
  - destruct (FrameCodec.ReadBytes_found r lastChar p rest Hcut) as (r1 & -> & Hr1 & _).
    apply FrameCodec.cut_after_split in Hcut as [Hl _].
    assert (Hstep : (acc ++ p) ++ content r1 = acc ++ content r)
      by (by rewrite Hr1, Hl, (assoc_L (++))).
    repeat case_decide.
    + intros [= <- <- <-]. by left.
    + intros Hloop. apply IH in Hloop. by rewrite Hstep in Hloop.
    + intros Hloop. apply IH in Hloop. by rewrite Hstep in Hloop.
  - rewrite (FrameCodec.ReadBytes_absent r lastChar Hcut).
    intros [= <- <- <-]. right. split; [done|]. by exists (content r).
Qed.

(** X3: [ReadUntil] returns bytes of the stream in their order, from
    the first one on, and nothing else. When the delimiter ended the
    call, the returned bytes followed by the bytes left on the stream
    are the stream as it was; otherwise the stream is used up. *)
Theorem ReadUntil_prefix (r r' : Reader) (delim out : list byte) (err : option error) :
  ReadUntil r delim = Done ((out, err), r') →
  out `prefix_of` content r
  ∧ (out ++ content r' = content r ∨ content r' = []).
Proof.
  unfold ReadUntil. destruct (last delim) as [lastChar|]; [|done].
  intros H. apply ReadUntil_loop_prefix in H. simpl in H.
  destruct H as [H|[H1 H2]].
  - split; [by exists (content r')|by left].
  - split; [done|by right].
Qed.

Lemma ReadUntil_prefix_witness :
  let r := mkReader [[x61; x0d]; [x0a; x62]] EOF in
  ReadUntil r EOFBytes = Done (([x61; x0d; x0a], None), mkReader [[x62]] EOF)
  ∧ [x61; x0d; x0a] `prefix_of` content r
  ∧ ([x61; x0d; x0a] ++ content (mkReader [[x62]] EOF) = content r
     ∨ content (mkReader [[x62]] EOF) = []).
Proof.
  split; [vm_compute; reflexivity|].
  apply (ReadUntil_prefix (mkReader [[x61; x0d]; [x0a; x62]] EOF) (mkReader [[x62]] EOF)
           EOFBytes [x61; x0d; x0a] None).
  vm_compute; reflexivity.
Defined.

(** X4: when the stream ends before the last byte of the delimiter
    has come, [ReadUntil] returns no bytes and a [nil] error, and the
    bytes that had arrived are gone from the stream. *)
Theorem ReadUntil_unterminated (r : Reader) (delim : list byte) (lastChar : byte) :
  last delim = Some lastChar →
  lastChar ∉ content r →
  ReadUntil r delim = Done (([], None), mkReader [] (final r)).
Proof.
  intros Hlast Hnot. unfold ReadUntil. rewrite Hlast.
  rewrite FrameCodec.ReadUntil_loop_unfold.
  by rewrite (FrameCodec.ReadBytes_absent r lastChar
                (FrameCodec.cut_after_absent lastChar (content r) Hnot)).
Qed.

Lemma ReadUntil_unterminated_witness :
  let r := mkReader [[x7b; x7d]; [x0d]] EOF in
  last EOFBytes = Some x0a
  ∧ (x0a ∉ content r)
  ∧ ReadUntil r EOFBytes = Done (([], None), mkReader [] (final r)).
Proof.
  assert (Hnot : x0a ∉ content (mkReader [[x7b; x7d]; [x0d]] EOF)).
  { unfold content. simpl. intros H.
    repeat (apply elem_of_cons in H as [H|H]; [discriminate H|]).
    by apply elem_of_nil in H. }
  split_and!; [reflexivity|exact Hnot|].
  exact (ReadUntil_unterminated (mkReader [[x7b; x7d]; [x0d]] EOF) EOFBytes x0a
           eq_refl Hnot).
Defined.

(** The loop, started with [acc] accumulated, [acc] not ending in CR,
    and the payload [q] still on the stream. *)
Lemma ReadUntil_loop_after (fuel : nat) :
  ∀ (q acc : list byte) (r : Reader) (rest : list byte),
    length q < fuel →
    acc ++ q ≠ [] →
    last acc ≠ Some x0d →
    (∀ pre post, q ≠ pre ++ EOFBytes ++ post) →
    content r = q ++ EOFBytes ++ rest →
    ∃ r', ReadUntil_loop fuel r EOFBytes x0a acc
            = Done ((acc ++ q ++ EOFBytes, None), r')
          ∧ content r' = rest ∧ final r' = final r.
Proof.
  induction fuel as [|fuel IH]; intros q acc r rest Hfuel Hne Hacc Hfree Hr; [lia|].
  rewrite FrameCodec.ReadUntil_loop_unfold.
  destruct (decide (x0a ∈ q)) as [Hin|Hout].
  - apply list_elem_of_split_l in Hin as (q1 & q2 & -> & Hq1).
    assert (Hcut : cut_after x0a (content r)
                   = Some (q1 ++ [x0a], q2 ++ EOFBytes ++ rest)).
    { rewrite Hr, <- (assoc_L (++)). simpl. by apply FrameCodec.cut_after_first. }
    destruct (FrameCodec.ReadBytes_found r x0a _ _ Hcut) as (r1 & -> & Hr1 & Hf1).
    assert (Hnot : ¬ (2 < length (acc ++ q1 ++ [x0a])
                      ∧ EOFBytes = drop (length (acc ++ q1 ++ [x0a]) - length EOFBytes)
                                     (acc ++ q1 ++ [x0a]))).
    { intros [Hlen Hsuf].
      destruct (FrameCodec.ends_with_terminator _ Hlen Hsuf) as [pre Hpre].
      unfold EOFBytes in Hpre.
      change (pre ++ [x0d; x0a]) with (pre ++ [x0d] ++ [x0a]) in Hpre.
      rewrite !(assoc_L (++)) in Hpre.
      apply app_inj_tail in Hpre as [Hpre _].
      destruct (decide (q1 = [])) as [->|Hq1ne].
      - rewrite (right_id_L [] (++)) in Hpre. apply Hacc.
        rewrite Hpre. apply last_snoc.
      - destruct (exists_last Hq1ne) as (q1' & x & ->).
        rewrite (assoc_L (++)) in Hpre. apply app_inj_tail in Hpre as [_ ->].
        apply (Hfree q1' q2). by rewrite <- !(assoc_L (++)). }
    assert (Hgo : ∃ r', ReadUntil_loop fuel r1 EOFBytes x0a (acc ++ q1 ++ [x0a])
              = Done ((acc ++ (q1 ++ x0a :: q2) ++ EOFBytes, None), r')
              ∧ content r' = rest ∧ final r' = final r).
    { destruct (IH q2 (acc ++ q1 ++ [x0a]) r1 rest) as (r' & Hloop & ? & ?).
      - rewrite length_app in Hfuel. simpl in Hfuel. lia.
      - intros Hnil. apply (f_equal length) in Hnil.
        rewrite !length_app in Hnil. simpl in Hnil. lia.
      - rewrite !(assoc_L (++)), last_snoc. discriminate.
      - intros pre post ->. apply (Hfree (q1 ++ x0a :: pre) post).
        by rewrite <- !(assoc_L (++)).
      - done.
      - exists r'. rewrite Hloop. rewrite <- !(assoc_L (++)). simpl.
        split_and!; [done|done|congruence]. }
    simpl length at 1.
    destruct (decide (2 < length (acc ++ q1 ++ [x0a]))) as [Hlen|Hlen]; [|done].
    destruct (decide (EOFBytes = _)) as [Hsuf|Hsuf]; [|done].
    destruct Hnot. done.
  - assert (Hcut : cut_after x0a (content r) = Some (q ++ EOFBytes, rest)).
    { rewrite Hr. unfold EOFBytes.
      replace (q ++ [x0d; x0a] ++ rest) with ((q ++ [x0d]) ++ x0a :: rest)
        by (by rewrite <- (assoc_L (++))).
      rewrite FrameCodec.cut_after_first.
      - by rewrite <- (assoc_L (++)).
      - rewrite elem_of_app, list_elem_of_singleton. intros [?|?]; done. }
    destruct (FrameCodec.ReadBytes_found r x0a _ _ Hcut) as (r1 & -> & Hr1 & Hf1).
    simpl length at 1.
    rewrite decide_True.
    + rewrite decide_True; [eauto|].
      rewrite (assoc_L (++) acc q). unfold EOFBytes at 2 3 4.
      simpl length at 2. by rewrite FrameCodec.drop_terminator.
    + rewrite (assoc_L (++)), length_app. simpl.
      destruct (acc ++ q); [done|]. simpl. lia.
Qed.

(** A terminator on its own in front of a frame is returned with the
    frame. *)
Lemma ReadUntil_after_blank (q rest : list byte) (r : Reader) :
  (∀ pre post, q ≠ pre ++ EOFBytes ++ post) →
  content r = EOFBytes ++ q ++ EOFBytes ++ rest →
  ∃ r', ReadUntil r EOFBytes = Done ((EOFBytes ++ q ++ EOFBytes, None), r')
        ∧ content r' = rest.
Proof.
  intros Hfree Hr.
  change (ReadUntil r EOFBytes)
    with (ReadUntil_loop (S (length (content r))) r EOFBytes x0a []).
  rewrite FrameCodec.ReadUntil_loop_unfold.
  assert (Hcut : cut_after x0a (content r) = Some (EOFBytes, q ++ EOFBytes ++ rest)).
  { rewrite Hr. unfold EOFBytes at 1.
    change ([x0d; x0a] ++ q ++ EOFBytes ++ rest)
      with ([x0d] ++ x0a :: (q ++ EOFBytes ++ rest)).
    rewrite FrameCodec.cut_after_first; [done|].
    rewrite list_elem_of_singleton. done. }
  destruct (FrameCodec.ReadBytes_found r x0a _ _ Hcut) as (r1 & -> & Hr1 & Hf1).
  destruct (ReadUntil_loop_after (length (content r)) q EOFBytes r1 rest)
    as (r' & Hloop & ? & ?); [|done|done|done|done|].
  { rewrite Hr, !length_app. simpl. lia. }
  exists r'. split; [|done].
  rewrite decide_False by (vm_compute; lia). exact Hloop.
Qed.

Lemma readFrames_after_blank (payloads : list (list byte)) :
  ∀ (r : Reader) (tail : list byte),
    Forall (λ b, b ≠ [] ∧ Contains b EOFBytes = false) payloads →
    content r = concat ((λ b, EOFBytes ++ b ++ EOFBytes) <$> payloads) ++ tail →
    ∃ r', readFrames (length payloads) r
            = Done ((λ b, EOFBytes ++ b ++ EOFBytes) <$> payloads, r')
          ∧ content r' = tail.
Proof.
  induction payloads as [|b payloads IH]; intros r tail Hall Hr.
  - exists r. by split.
  - apply Forall_cons in Hall as [[_ Hb] Hall].
    simpl length. simpl readFrames.
    destruct (ReadUntil_after_blank b
                (concat ((λ b, EOFBytes ++ b ++ EOFBytes) <$> payloads) ++ tail) r)
      as (r1 & -> & Hr1).
    + by apply FrameCodec.Contains_false.
    + rewrite Hr. simpl. by rewrite <- !(assoc_L (++)).
    + destruct (IH r1 tail Hall Hr1) as (r' & -> & ?). by exists r'.
Qed.

Lemma writeJSONs_written {V : Type} (json_Marshal : V → list byte * option error)
    (vs : list V) :
  ∀ (payloads : list (list byte)) (conn : Conn),
    Forall2 (λ v b, json_Marshal v = (b, None)) vs payloads →
    closed conn = false →
    writeJSONs json_Marshal conn vs
    = (mkConn (written conn ++ concat ((λ b, b ++ EOFBytes ++ EOFBytes) <$> payloads))
         false, None).
Proof.
  induction vs as [|v vs IH]; intros payloads conn Hall Hopen.
  - apply Forall2_nil_inv_l in Hall as ->. simpl.
    rewrite (right_id_L [] (++)). by destruct conn; simpl in *; subst.
  - apply Forall2_cons_inv_l in Hall as (b & payloads' & Hb & Hall & ->).
    simpl. rewrite (FrameWriters.writeJSONTo_written json_Marshal conn v b Hb Hopen).
    rewrite (IH payloads' (mkConn (written conn ++ b ++ EOFBytes ++ EOFBytes) false)
               Hall eq_refl). simpl.
    by rewrite <- !(assoc_L (++)).
Qed.

Lemma blank_shift (b : list byte) (payloads : list (list byte)) :
  concat ((λ b, b ++ EOFBytes ++ EOFBytes) <$> (b :: payloads))
  = b ++ EOFBytes
      ++ concat ((λ b, EOFBytes ++ b ++ EOFBytes) <$> payloads) ++ EOFBytes.
Proof.
  revert b. induction payloads as [|b' payloads IH]; intros b.
  - simpl. by rewrite (right_id_L [] (++)).
  - change (concat ((λ b, b ++ EOFBytes ++ EOFBytes) <$> (b :: b' :: payloads)))
      with ((b ++ EOFBytes ++ EOFBytes)
              ++ concat ((λ b, b ++ EOFBytes ++ EOFBytes) <$> (b' :: payloads))).
    rewrite IH. simpl. by rewrite <- !(assoc_L (++)).
Qed.

(** X5: what the server reads of what the client writes. When the
    client sends values one after the other with [writeJSONTo], and
    their encodings are non-empty and free of CR LF, the successive
    [ReadUntil] calls of the server return one byte sequence per value:
    the first encoding followed by CR LF, and every later encoding
    between CR LF, the second terminator of the value before it, and its
    own CR LF. The second terminator of the last value stays on the
    stream. *)
Theorem client_requests_as_read {V : Type}
    (json_Marshal : V → list byte * option error) (vs : list V)
    (payloads : list (list byte)) :
  Forall2 (λ v b, json_Marshal v = (b, None)) vs payloads →
  Forall (λ b, b ≠ [] ∧ Contains b EOFBytes = false) payloads →
  ∃ conn',
    writeJSONs json_Marshal (mkConn [] false) vs = (conn', None)
    ∧ ∀ r, content r = written conn' →
           ∃ r', readFrames (length vs) r = Done (as_read payloads, r')
                 ∧ content r' = match payloads with [] => [] | _ => EOFBytes end.
Proof.
  intros Hvs Hall.
  rewrite (writeJSONs_written json_Marshal vs payloads (mkConn [] false) Hvs eq_refl).
  eexists. split; [done|]. simpl written.
  rewrite (Forall2_length _ _ _ Hvs).
  destruct payloads as [|b payloads]; intros r Hr.
  - exists r. by split.
  - apply Forall_cons in Hall as [[Hne Hb] Hall].
    rewrite blank_shift in Hr. simpl length. simpl readFrames.
    destruct (FrameCodec.ReadUntil_loop_frame (S (length (content r))) b [] r
                (concat ((λ b, EOFBytes ++ b ++ EOFBytes) <$> payloads) ++ EOFBytes))
      as (r1 & Hloop & Hr1 & _).
    + rewrite Hr, length_app. lia.
    + done.
    + by apply FrameCodec.Contains_false.
    + done.
    + change (ReadUntil r EOFBytes)
        with (ReadUntil_loop (S (length (content r))) r EOFBytes x0a []).
      rewrite Hloop. simpl app.
      destruct (readFrames_after_blank payloads r1 EOFBytes Hall Hr1) as (r' & -> & ?).
      by exists r'.
Qed.

Lemma client_requests_as_read_witness :
  let list := sample.op ListOperationType emptyJSON in
  let create :=
    sample.op CreateOperationType (sample.enc_Conversation (sample.named "general")) in
  let payloads := [sample.enc_Operation list; sample.enc_Operation create] in
  Forall2 (λ v b, Marshal_Operation sample.env v = (b, None)) [list; create] payloads
  ∧ Forall (λ b, b ≠ [] ∧ Contains b EOFBytes = false) payloads
  ∧ ∃ conn',
      writeJSONs (Marshal_Operation sample.env) (mkConn [] false) [list; create]
      = (conn', None)
      ∧ ∀ r, content r = written conn' →
             ∃ r', readFrames 2 r = Done (as_read payloads, r')
                   ∧ content r' = EOFBytes.
Proof.
  assert (H1 : Forall2 (λ v b, Marshal_Operation sample.env v = (b, None))
                 [sample.op ListOperationType emptyJSON;
                  sample.op CreateOperationType
                    (sample.enc_Conversation (sample.named "general"))]
                 [sample.enc_Operation (sample.op ListOperationType emptyJSON);
                  sample.enc_Operation
                    (sample.op CreateOperationType
                       (sample.enc_Conversation (sample.named "general")))])
    by (repeat constructor).
  assert (H2 : Forall (λ b, b ≠ [] ∧ Contains b EOFBytes = false)
                 [sample.enc_Operation (sample.op ListOperationType emptyJSON);
                  sample.enc_Operation
                    (sample.op CreateOperationType
                       (sample.enc_Conversation (sample.named "general")))]).
  { repeat constructor; try (vm_compute; reflexivity);
      intros H; vm_compute in H; discriminate H. }
  split_and!; [exact H1|exact H2|].
  exact (client_requests_as_read (Marshal_Operation sample.env) _ _ H1 H2).
Defined.

End FrameCodecMore.

(** ** More on the response writers and the session handler *)

Module SessionMore.
Import common server Spec Laws.

(** On a closed connection [writeOKResponse] sends nothing and
    returns an error. *)
Lemma writeOKResponse_closed (env : Env) (conn : Conn) (message : list byte)
    (operationType : string) :
  closed conn = true →
  ∃ e, writeOKResponse env conn message operationType = (conn, Some e).
Proof.
  intros Hc. unfold writeOKResponse.
  destruct (Marshal_Response env _) as [responseBytes [e|]]; simpl; [eauto|].
  unfold Conn_Write. rewrite Hc. eauto.
Qed.

(** On an open connection, with the response encoded, [writeOKResponse]
    sends the frame. *)
Lemma writeOKResponse_outcome_aux (env : Env) (conn : Conn) (message : list byte)
    (operationType : string) :
  match Marshal_Response env (ok_response message operationType) with
  | (responseBytes, None) =>
      closed conn = false →
      writeOKResponse env conn message operationType
      = (mkConn (written conn ++ responseBytes ++ EOFBytes) false, None)
  | (_, Some _) =>
      ∃ e, writeOKResponse env conn message operationType = (conn, Some e)
  end.
Proof.
  unfold writeOKResponse, ok_response.
  destruct (decide (operationType ≠ "")) as [?|Hn];
    [|apply dec_stable in Hn; subst operationType];
    destruct (decide (message ≠ [])); simpl;
    (destruct (Marshal_Response env _) as [responseBytes [e|]]; simpl; [eauto|]);
    unfold Conn_Write; by intros ->.
Qed.


(** X7: [writeErrorResponse] leaves the connection closed; on an open
    connection it sends exactly one frame before, and on a closed one
    nothing. After it nothing more can be sent: every later write
    reports an error and leaves the bytes sent as they are. *)
Theorem nothing_after_error_response (env : Env) (conn : Conn) (s : string) :
  let conn' := writeErrorResponse env conn s in
  closed conn' = true
  ∧ written conn'
    = (if closed conn then written conn
       else written conn ++ (Marshal_Response env (error_response s)).1 ++ EOFBytes)
  ∧ (∀ b, ∃ e, Conn_Write conn' b = (conn', Some e))
  ∧ (∀ message operationType,
       ∃ e, writeOKResponse env conn' message operationType = (conn', Some e))
  ∧ (∀ s', writeErrorResponse env conn' s' = conn').
Proof.
  intros conn'.
  assert (Hclosed : closed conn' = true) by apply SessionHandler.writeErrorResponse_closes.
  assert (Hwrite : ∀ b, Conn_Write conn' b
                        = (conn', Some (ErrorString "use of closed network connection"))).
  { intros b. unfold Conn_Write. by rewrite Hclosed. }
  split_and!.
  - done.
  - destruct (closed conn) eqn:Hc.
    + unfold conn', writeErrorResponse.
      destruct (Marshal_Response env _) as [responseBytes err].
      unfold Conn_Write. rewrite Hc. simpl. by rewrite Hc.
    + unfold conn'. by rewrite (SessionHandler.writeErrorResponse_open env conn s Hc).
  - intros b. eauto.
  - intros message operationType.
    by apply writeOKResponse_closed.
  - intros s'. unfold writeErrorResponse.
    destruct (Marshal_Response env _) as [responseBytes err].
    rewrite !Hwrite. destruct conn' as [w c]. simpl in Hclosed. by subst c.
Qed.

(** A turn of the loop is the decoding of the request, the [switch]
    and the answer. *)
Lemma serveRequest_dispatch (env : Env) (request : list byte) (g : Globals) (s : Session) :
  serveRequest env request g s =
    match Unmarshal_Operation env request with
    | None =>
        Done (g, mkSession (writeErrorResponse env (conn s) unmarshalingError)
                   (conversationsToListenOn s), None, Break)
    | Some operation =>
        match dispatch env operation g (conversationsToListenOn s) with
        | Done (g', subs', response, err, sent) =>
            Done (g', mkSession (answer env operation (conn s) err response).1 subs',
                  sent, (answer env operation (conn s) err response).2)
        | Panics => Panics
        | OutOfFuel => OutOfFuel
        end
    end.
Proof.
  unfold serveRequest, getOperation, dispatch, answer.
  destruct (Unmarshal_Operation env request) as [operation|]; [|done].
  repeat case_decide;
    repeat match goal with
           | |- context [match ?x with _ => _ end] => destruct x; simpl; try done
           end.
Qed.

Lemma answer_break (env : Env) (operation : Operation) (conn : Conn)
    (err : option error) (response : list byte) :
  (answer env operation conn err response).2 = Break →
  closed (answer env operation conn err response).1 = true.
Proof.
  unfold answer. destruct err as [e|]; simpl.
  - intros _. apply SessionHandler.writeErrorResponse_closes.
  - destruct (writeOKResponse env conn response _) as [conn' [e|]]; simpl; [|done].
    intros _. apply SessionHandler.writeErrorResponse_closes.
Qed.

Lemma answer_continue (env : Env) (operation : Operation) (conn : Conn)
    (err : option error) (response : list byte) :
  (answer env operation conn err response).2 = Continue →
  err = None
  ∧ closed conn = false
  ∧ (answer env operation conn err response).1
    = mkConn (written conn
                ++ (Marshal_Response env
                      (ok_response response (Operation_Type operation))).1
                ++ EOFBytes) false.
Proof.
  unfold answer. destruct err as [e|]; simpl; [done|].
  pose proof (SessionHandler.writeOKResponse_frame env conn) as Hframe.
  destruct (writeOKResponse env conn response _) as [conn' [e|]] eqn:Hw; simpl; [done|].
  intros _. destruct (Hframe conn' response _ Hw) as [Hwr Hcl].
  split; [done|]. split.
  - unfold writeOKResponse in Hw.
    destruct (Marshal_Response env _) as [responseBytes [e|]]; [done|].
    unfold Conn_Write in Hw. by destruct (closed conn).
  - destruct conn' as [w c]. simpl in *. by subst.
Qed.

(** X8: every request that the loop of [handleConnection] goes on
    after was answered with exactly one frame, the ok response for the
    type of the decoded operation, on a connection that was open and
    stays open; every request that ends the loop leaves the connection
    closed. *)
Theorem one_response_per_request (env : Env) (request : list byte) (g g' : Globals)
    (s s' : Session) (sent : option Message) (ctl : control) :
  serveRequest env request g s = Done (g', s', sent, ctl) →
  match ctl with
  | Continue =>
      ∃ operation response,
        Unmarshal_Operation env request = Some operation
        ∧ closed (conn s) = false
        ∧ conn s' = mkConn (written (conn s)
                              ++ (Marshal_Response env
                                    (ok_response response (Operation_Type operation))).1
                              ++ EOFBytes) false
  | Break => closed (conn s') = true
  end.
Proof.
  rewrite serveRequest_dispatch.
  destruct (Unmarshal_Operation env request) as [operation|].
  - destruct (dispatch env operation g _) as [[[[[g1 subs1] response] err] sent1]| |];
      [|done|done].
    intros [= <- <- <- <-]. simpl.
    destruct (answer env operation (conn s) err response).2 eqn:Hctl.
    + apply answer_continue in Hctl as (_ & ? & ?). by exists operation, response.
    + by apply answer_break.
  - intros [= <- <- <- <-]. apply SessionHandler.writeErrorResponse_closes.
Qed.

Lemma one_response_per_request_witness :
  let request := sample.request ListOperationType emptyJSON in
  let s := mkSession (mkConn [] false) ∅ in
  let s' := mkSession
              (mkConn (sample.frame (sample.enc_Response
                         (mkResponse "ok" ListOperationType None
                            (Some (sample.enc_Conversations [])))))
                 false) ∅ in
  serveRequest sample.env request initial s = Done (initial, s', None, Continue)
  ∧ ∃ operation response,
      Unmarshal_Operation sample.env request = Some operation
      ∧ closed (conn s) = false
      ∧ conn s' = mkConn (written (conn s)
                            ++ (Marshal_Response sample.env
                                  (ok_response response (Operation_Type operation))).1
                            ++ EOFBytes) false.
Proof.
  split; [vm_compute; reflexivity|].
  refine (one_response_per_request sample.env
            (sample.request ListOperationType emptyJSON) initial initial
            (mkSession (mkConn [] false) ∅) _ None Continue _).
  vm_compute; reflexivity.
Defined.

(** X9: an operation whose type is none of "create", "subscribe",
    "message" and "list" is answered with the ok response for that
    type and the empty object, changes neither the registry nor the
    subscriptions, sends no message, and the loop goes on. *)
Theorem unknown_operation_tolerated (env : Env) (request : list byte) (g : Globals)
    (s : Session) (operation : Operation) (responseBytes : list byte) :
  Unmarshal_Operation env request = Some operation →
  Operation_Type operation ∉ [CreateOperationType; SubscribeOperationType;
                               MessageOperationType; ListOperationType] →
  Marshal_Response env (mkResponse "ok" (Operation_Type operation) None (Some emptyJSON))
  = (responseBytes, None) →
  closed (conn s) = false →
  serveRequest env request g s
  = Done (g,
          mkSession (mkConn (written (conn s) ++ responseBytes ++ EOFBytes) false)
            (conversationsToListenOn s),
          None, Continue).
Proof.
  intros Hop Htype Hresp Hopen. rewrite serveRequest_dispatch, Hop.
  rewrite !not_elem_of_cons in Htype. destruct Htype as (? & ? & ? & ? & _).
  unfold dispatch. rewrite !decide_False by done.
  unfold answer.
  pose proof (writeOKResponse_outcome_aux env (conn s) emptyJSON
                (Operation_Type operation)) as Hw.
  unfold ok_response in Hw. rewrite decide_True in Hw by done. rewrite Hresp in Hw.
  simpl in Hw. rewrite (Hw Hopen). done.
Qed.

Lemma unknown_operation_tolerated_witness :
  let alice := sample.enc_SenderFields (mkSenderFields (Some 10%N) (Some "alice")) in
  let request := sample.request AboutMeOperationType alice in
  let operation := sample.op AboutMeOperationType alice in
  let responseBytes :=
    sample.enc_Response (mkResponse "ok" AboutMeOperationType None (Some emptyJSON)) in
  let s := mkSession (mkConn [] false) ∅ in
  Unmarshal_Operation sample.env request = Some operation
  ∧ (Operation_Type operation ∉ [CreateOperationType; SubscribeOperationType;
                                  MessageOperationType; ListOperationType])
  ∧ serveRequest sample.env request initial s
    = Done (initial,
            mkSession (mkConn (written (conn s) ++ responseBytes ++ EOFBytes) false)
              (conversationsToListenOn s),
            None, Continue).
Proof.
  assert (Hop : Unmarshal_Operation sample.env
                  (sample.request AboutMeOperationType
                     (sample.enc_SenderFields (mkSenderFields (Some 10%N) (Some "alice"))))
                = Some (sample.op AboutMeOperationType
                          (sample.enc_SenderFields
                             (mkSenderFields (Some 10%N) (Some "alice")))))
    by (vm_compute; reflexivity).
  assert (Htype : Operation_Type
                    (sample.op AboutMeOperationType
                       (sample.enc_SenderFields
                          (mkSenderFields (Some 10%N) (Some "alice"))))
                  ∉ [CreateOperationType; SubscribeOperationType;
                     MessageOperationType; ListOperationType]).
  { simpl. rewrite !not_elem_of_cons. split_and!; [discriminate..|apply not_elem_of_nil]. }
  split_and!; [exact Hop|exact Htype|].
  exact (unknown_operation_tolerated sample.env _ initial (mkSession (mkConn [] false) ∅)
           _ _ Hop Htype eq_refl eq_refl).
Defined.

(** At the end of the stream [ReadUntil] hands the loop no bytes and
    no error. *)
Lemma ReadUntil_at_end (r : Reader) :
  content r = [] →
  ReadUntil r EOFBytes = Done (([], None), mkReader [] (final r)).
Proof.
  intros Hr.
  change (ReadUntil r EOFBytes)
    with (ReadUntil_loop (S (length (content r))) r EOFBytes x0a []).
  rewrite FrameCodec.ReadUntil_loop_unfold.
  rewrite (FrameCodec.ReadBytes_absent r x0a); [done|].
  rewrite Hr. done.
Qed.

(** X10: the loop of [handleConnection] does not see the end of the
    stream. When the client has closed the connection, the loop decodes
    the empty request, and with a decoder that rejects the empty
    document it sends the error response for a decoding failure on the
    connection, closes it and returns. *)
Theorem end_of_stream_is_a_bad_request (env : Env) (fuel : nat) (g : Globals)
    (s : Session) (r : Reader) (sent : list Message) :
  content r = [] →
  Unmarshal_Operation env [] = None →
  closed (conn s) = false →
  sessionLoop (S fuel) env g s r sent
  = Done (g,
          mkSession
            (mkConn (written (conn s)
                       ++ (Marshal_Response env (error_response unmarshalingError)).1
                       ++ EOFBytes) true)
            (conversationsToListenOn s),
          mkReader [] (final r), sent).
Proof.
  intros Hr Hdec Hopen. simpl. rewrite (ReadUntil_at_end r Hr).
  rewrite decide_False by done.
  rewrite serveRequest_dispatch, Hdec.
  change (option_list (@None Message)) with (@nil Message).
  rewrite (right_id_L [] (++)).
  by rewrite (SessionHandler.writeErrorResponse_open env (conn s) _ Hopen).
Qed.

Lemma end_of_stream_is_a_bad_request_witness :
  let r := mkReader [] EOF in
  let s := mkSession (mkConn [] false) ∅ in
  content r = []
  ∧ Unmarshal_Operation sample.env [] = None
  ∧ sessionLoop 1 sample.env initial s r []
    = Done (initial,
            mkSession
              (mkConn (written (conn s)
                         ++ (Marshal_Response sample.env
                               (error_response unmarshalingError)).1
                         ++ EOFBytes) true)
              (conversationsToListenOn s),
            mkReader [] (final r), []).
Proof.
  split_and!; [reflexivity|vm_compute; reflexivity|].
  exact (end_of_stream_is_a_bad_request sample.env 0 initial
           (mkSession (mkConn [] false) ∅) (mkReader [] EOF) []
           eq_refl eq_refl eq_refl).
Defined.

Lemma serveRequest_break_closed (env : Env) (request : list byte) (g g' : Globals)
    (s s' : Session) (sent : option Message) :
  serveRequest env request g s = Done (g', s', sent, Break) →
  closed (conn s') = true.
Proof.
  rewrite serveRequest_dispatch.
  destruct (Unmarshal_Operation env request) as [operation|].
  - destruct (dispatch env operation g _) as [[[[[g1 subs1] response] err] sent1]| |];
      [|done|done].
    intros [= <- <- <- Hctl]. simpl. by apply answer_break.
  - intros [= <- <- <-]. apply SessionHandler.writeErrorResponse_closes.
Qed.

(** X11: whenever the loop of [handleConnection] returns, the
    connection is closed: the only way out of the loop is through an
    error response. *)
Theorem sessionLoop_returns_closed (fuel : nat) (env : Env) :
  ∀ (g g' : Globals) (s s' : Session) (r r' : Reader) (sent sent' : list Message),
    sessionLoop fuel env g s r sent = Done (g', s', r', sent') →
    closed (conn s') = true.
Proof.
  induction fuel as [|fuel IH]; intros g g' s s' r r' sent sent'; [done|].
  simpl.
  destruct (FrameCodec.ReadUntil_returns r EOFBytes) as (out & r1 & ->); [done|].
  rewrite decide_False by done.
  destruct (serveRequest env out g s) as [[[[g1 s1] m] [|]]| |] eqn:Hserve;
    [| |done|done].
  - apply IH.
  - intros [= <- <- <- <-]. by eapply serveRequest_break_closed.
Qed.

Lemma sessionLoop_returns_closed_witness :
  let r := mkReader [sample.request ListOperationType emptyJSON] EOF in
  ∃ g' s' r' sent',
    sessionLoop 5 sample.env initial (mkSession (mkConn [] false) ∅) r []
    = Done (g', s', r', sent')
    ∧ closed (conn s') = true.
Proof.
  cbv zeta. eexists _, _, _, _. split; [vm_compute; reflexivity|].
  eapply (sessionLoop_returns_closed 5 sample.env initial _
            (mkSession (mkConn [] false) ∅) _
            (mkReader [sample.request ListOperationType emptyJSON] EOF) _ [] _).
  vm_compute; reflexivity.
Defined.

Lemma writeOKResponse_closed_flag (env : Env) (conn : Conn) (message : list byte)
    (operationType : string) :
  closed (writeOKResponse env conn message operationType).1 = closed conn.
Proof.
  unfold writeOKResponse.
  destruct (Marshal_Response env _) as [responseBytes [e|]]; simpl; [done|].
  unfold Conn_Write. by destruct (closed conn) eqn:Hc.
Qed.

Lemma ParseClientAboutMe_globals (env : Env) (b : list byte) (g : Globals) :
  (ParseClientAboutMe env b g).2 = drawn g.
Proof. unfold ParseClientAboutMe. simpl. by destruct (Unmarshal_Sender env b). Qed.

Lemma handshake_cases (env : Env) (request : list byte) (g g' : Globals)
    (conn conn' : Conn) (identity : option ClientAboutMe) :
  closed conn = false →
  handshake env request None g conn = Done (g', conn', identity) →
  (g' = g ∨ g' = drawn g)
  ∧ (is_Some identity ↔ closed conn' = false).
Proof.
  intros Hopen. unfold handshake, getOperation.
  assert (Hfail : ∀ s, ¬ closed (writeErrorResponse env conn s) = false).
  { intros s. by rewrite SessionHandler.writeErrorResponse_closes. }
  destruct (Unmarshal_Operation env request) as [op|].
  2:{ intros [= <- <- <-]. split; [by left|]. split; [by intros [? ?]|by intros ?%Hfail]. }
  destruct (Operation_Message op) as [raw|]; [|done].
  pose proof (ParseClientAboutMe_globals env raw g) as Hg.
  destruct (ParseClientAboutMe env raw g) as [[aboutClient [e|]] g1]; simpl in Hg; subst g1.
  { intros [= <- <- <-]. split; [by right|]. split; [by intros [? ?]|by intros ?%Hfail]. }
  unfold sendAboutMeResponse.
  destruct (Marshal_Sender env aboutClient) as [b [e|]].
  { intros [= <- <- <-]. split; [by right|]. split; [by intros [? ?]|by intros ?%Hfail]. }
  pose proof (writeOKResponse_closed_flag env conn b AboutMeOperationType) as Hflag.
  destruct (writeOKResponse env conn b AboutMeOperationType) as [conn1 e1].
  simpl in Hflag. intros [= <- <- <-]. split; [by right|].
  split; [intros _; congruence|eauto].
Qed.



(** X13: the handshake does not look at the type of the first
    operation: two first frames whose operations carry the same message
    lead to the same outcome, whatever their types. *)
Theorem handshake_ignores_type (env : Env) (request1 request2 : list byte)
    (operation1 operation2 : Operation) (g : Globals) (conn : Conn) :
  Unmarshal_Operation env request1 = Some operation1 →
  Unmarshal_Operation env request2 = Some operation2 →
  Operation_Message operation1 = Operation_Message operation2 →
  handshake env request1 None g conn = handshake env request2 None g conn.
Proof.
  intros H1 H2 Hm. unfold handshake, getOperation. by rewrite H1, H2, Hm.
Qed.

Lemma handshake_ignores_type_witness :
  let bob := sample.text "{`name`:`bob`}" in
  let request1 := sample.request AboutMeOperationType bob in
  let request2 := sample.frame (sample.enc_Operation (mkOperation "hello" (Some bob))) in
  let env := mkEnv (λ b, if decide (b = request2) then Some (mkOperation "hello" (Some bob))
                         else Unmarshal_Operation sample.env b)
               (Unmarshal_Conversation sample.env) (Unmarshal_Conversations sample.env)
               (Unmarshal_Message sample.env) (Unmarshal_Sender sample.env)
               (Unmarshal_Response sample.env) (Marshal_Operation sample.env)
               (Marshal_Response sample.env) (Marshal_Message sample.env)
               (Marshal_Sender sample.env) (Marshal_Conversation sample.env)
               (Marshal_Conversations sample.env) (uuid_at sample.env) in
  Unmarshal_Operation env request1 = Some (sample.op AboutMeOperationType bob)
  ∧ Unmarshal_Operation env request2 = Some (mkOperation "hello" (Some bob))
  ∧ handshake env request1 None initial (mkConn [] false)
    = handshake env request2 None initial (mkConn [] false).
Proof.
  cbv zeta. split_and!; [vm_compute; reflexivity|vm_compute; reflexivity|].
  apply (handshake_ignores_type _ _ _ (sample.op AboutMeOperationType
                                         (sample.text "{`name`:`bob`}"))
           (mkOperation "hello" (Some (sample.text "{`name`:`bob`}"))));
    [vm_compute; reflexivity|vm_compute; reflexivity|reflexivity].
Defined.

End SessionMore.

(** ** Invariants of the server *)

Module Invariants.
Import common server system Spec Laws.

Lemma handleCreateConversation_globals (env : Env) (op : Operation) (g g' : Globals)
    (err : option error) :
  handleCreateConversation env op g = Done (g', err) →
  g' = g ∨ g' = drawn g
  ∨ ∃ n, conversationsByNickname g !! n = None ∧ g' = register env g n.
Proof.
  intros H.
  destruct (Operation_Message op) as [raw|] eqn:Hop;
    [destruct (Unmarshal_Conversation env raw) as [c|] eqn:Hraw|].
  - rewrite (Registry.handleCreateConversation_decoded env op raw c g Hop Hraw) in H.
    simpl in H.
    destruct (conversationsByNickname g !! _) eqn:Hl; injection H as <- <-.
    + right. by left.
    + right. right. eauto.
  - unfold handleCreateConversation in H. rewrite Hop, Hraw in H.
    injection H as <- <-. by left.
  - unfold handleCreateConversation in H. by rewrite Hop in H.
Qed.

Lemma dispatch_effect (env : Env) (op : Operation) (g g' : Globals)
    (subs subs' : gmap N bool) (response : list byte) (err : option error)
    (sent : option Message) :
  dispatch env op g subs = Done (g', subs', response, err, sent) →
  (subs' = subs
   ∧ (g' = g ∨ g' = drawn g
      ∨ ∃ n, conversationsByNickname g !! n = None ∧ g' = register env g n))
  ∨ (g' = g
     ∧ ∃ n c, conversationsByNickname g !! n = Some c
              ∧ subs' = <[Conversation_ID c := true]> subs).
Proof.
  unfold dispatch. repeat case_decide.
  - destruct (handleCreateConversation env op g) as [[g1 e1]| |] eqn:Hc; [|done|done].
    intros [= <- <- <- <- <-]. left. split; [done|].
    by eapply handleCreateConversation_globals.
  - unfold handleSubscribe.
    destruct (Operation_Message op) as [raw|]; [|done].
    destruct (Unmarshal_Conversation env raw) as [c|].
    + destruct (conversationsByNickname g !! Conversation_Nickname c) as [c'|] eqn:Hl.
      * intros [= <- <- <- <- <-]. right. split; [done|]. eauto.
      * intros [= <- <- <- <- <-]. left. split; [done|by left].
    + intros [= <- <- <- <- <-]. left. split; [done|by left].
  - destruct (handleMessage env op) as [[[r1 e1] m1]| |]; [|done|done].
    intros [= <- <- <- <- <-]. left. split; [done|by left].
  - destruct (handleListConversations env op g) as [r1 e1].
    intros [= <- <- <- <- <-]. left. split; [done|by left].
  - intros [= <- <- <- <- <-]. left. split; [done|by left].
Qed.

Lemma registry_inv_initial (env : Env) : registry_inv env initial.
Proof.
  unfold registry_inv, ids, map_get. simpl. split_and!.
  - constructor.
  - intros n c. rewrite lookup_empty, elem_of_nil. split; [done|by intros [? _]].
  - intros id. rewrite lookup_empty, elem_of_nil. simpl. split; [done|done].
  - intros id. by rewrite elem_of_nil.
Qed.

Lemma registry_inv_drawn (env : Env) (g : Globals) :
  registry_inv env g → registry_inv env (drawn g).
Proof.
  intros (Hnd & Hidx & Hrec & Hdrawn). unfold registry_inv, ids in *. simpl.
  split_and!; try done.
  intros id Hid. destruct (Hdrawn id Hid) as (k & ? & ?). exists k. split; [lia|done].
Qed.

Lemma registry_inv_register (env : Env) (g : Globals) (n : string) :
  registry_inv env g →
  conversationsByNickname g !! n = None →
  registry_inv env (register env g n).
Proof.
  intros (Hnd & Hidx & Hrec & Hdrawn) Hfree.
  assert (Hnotin : n ∉ Conversation_Nickname <$> conversations g).
  { intros (c & -> & Hc)%list_elem_of_fmap.
    assert (conversationsByNickname g !! Conversation_Nickname c = Some c) as Hl
      by (by apply Hidx).
    congruence. }
  unfold registry_inv, ids, register in *. simpl. rewrite !fmap_app. simpl.
  split_and!.
  - apply NoDup_app. split_and!; [done| |apply NoDup_singleton].
    intros x Hx ->%list_elem_of_singleton. done.
  - intros k c. rewrite elem_of_app, list_elem_of_singleton.
    destruct (decide (n = k)) as [->|Hne].
    + rewrite lookup_insert_eq. split.
      * intros [= <-]. split; [by right|done].
      * intros [[Hc | ->] Hk]; [|done].
        destruct Hnotin. apply list_elem_of_fmap. eauto.
    + rewrite lookup_insert_ne by done. rewrite Hidx. split.
      * intros [? ?]. split; [by left|done].
      * intros [[? | ->] ?]; [done|]. simpl in *. congruence.
  - intros id. rewrite elem_of_app, list_elem_of_singleton, <- Hrec. unfold map_get.
    destruct (decide (uuid_at env (uuid_calls g) = id)) as [->|Hne].
    + rewrite lookup_insert_eq. simpl. split; [by right|done].
    + rewrite lookup_insert_ne by done. split; [by left|]. intros [?|?]; [done|congruence].
  - intros id. rewrite elem_of_app, list_elem_of_singleton.
    intros [Hid | ->].
    + destruct (Hdrawn id Hid) as (k & ? & ?). exists k. split; [lia|done].
    + exists (uuid_calls g). split; [lia|done].
Qed.

Lemma ids_distinct_register (env : Env) (g : Globals) (n : string) :
  registry_inv env g →
  ids_distinct env g →
  ids_distinct env (register env g n).
Proof.
  intros (_ & _ & _ & Hdrawn) Hdist Hinj. unfold ids, register in *. simpl.
  rewrite fmap_app. simpl. apply NoDup_app. split_and!.
  - by apply Hdist.
  - intros id Hid ->%list_elem_of_singleton.
    destruct (Hdrawn _ Hid) as (k & Hk & Heq). apply Hinj in Heq. lia.
  - apply NoDup_singleton.
Qed.

Lemma subscriptions_registered_Forall (sys : System) :
  subscriptions_registered sys
  ↔ Forall (listens_on_registered (globals sys)) (clients sys).
Proof.
  rewrite Forall_lookup. unfold subscriptions_registered, listens_on_registered.
  split; intros H; [intros j c Hj id|intros j c id Hj]; by eapply H.
Qed.

Lemma open_while_running_Forall (sys : System) :
  open_while_running sys ↔ Forall open_iff_running (clients sys).
Proof. rewrite Forall_lookup. done. Qed.

Lemma moves_inv (env : Env) (g g' : Globals) :
  moves env g g' →
  registry_inv env g →
  ids_distinct env g →
  registry_inv env g' ∧ ids_distinct env g'
  ∧ conversations g `prefix_of` conversations g'.
Proof.
  intros [-> | [-> | (n & Hfree & ->)]] Hinv Hdist.
  - done.
  - split_and!; [by apply registry_inv_drawn|done|done].
  - split_and!; [by apply registry_inv_register|by apply ids_distinct_register|].
    by eexists.
Qed.

Lemma listens_on_registered_moves (env : Env) (g g' : Globals) (c : Client) :
  moves env g g' →
  listens_on_registered g c →
  listens_on_registered g' c.
Proof.
  intros Hm Hc id Hid. specialize (Hc id Hid). unfold ids in *.
  destruct Hm as [-> | [-> | (n & _ & ->)]]; try done.
  simpl. rewrite fmap_app, elem_of_app. by left.
Qed.

Lemma hand_over_Forall (P : Client → Prop) (j : nat) (m : Message)
    (cs cs' : list Client) :
  (∀ s ph t t', P (mkClient s ph t) → P (mkClient s ph t')) →
  hand_over j m cs = Some cs' →
  Forall P cs → Forall P cs'.
Proof.
  intros Hext. unfold hand_over.
  destruct (cs !! j) as [[s ph [| |]]|] eqn:Hj; try done.
  intros [= <-] Hall. apply Forall_insert; [done|].
  eapply Hext, (Forall_lookup_1 _ _ _ _ Hall Hj).
Qed.

Lemma deliverMessage_closed_flag (env : Env) (s : Session) (m : Message) (conn' : Conn) :
  deliverMessage env s m = Done conn' →
  closed conn' = closed (conn s).
Proof.
  unfold deliverMessage.
  destruct (Message_Conversation m) as [c|]; [|done].
  destruct (map_get _ _); [|by intros [= <-]].
  destruct (Marshal_Message env m) as [b [e|]]; [by intros [= <-]|].
  pose proof (SessionMore.writeOKResponse_closed_flag env (conn s) b MessageOperationType).
  destruct (writeOKResponse env (conn s) b MessageOperationType) as [c1 e1].
  by intros [= <-].
Qed.

(** One turn of the loop of a running client keeps the invariants. *)
Lemma serveRequest_inv (env : Env) (request : list byte) (g g' : Globals)
    (s s' : Session) (t : worker) (sent : option Message) (ctl : control) :
  serveRequest env request g s = Done (g', s', sent, ctl) →
  registry_inv env g →
  listens_on_registered g (mkClient s Running t) →
  moves env g g'
  ∧ listens_on_registered g'
      (mkClient s' match ctl with Continue => Running | Break => Leaving end t)
  ∧ open_iff_running
      (mkClient s' match ctl with Continue => Running | Break => Leaving end t).
Proof.
  rewrite SessionMore.serveRequest_dispatch. intros H Hinv Hsub.
  destruct (Unmarshal_Operation env request) as [operation|].
  - destruct (dispatch env operation g _) as [[[[[g1 subs1] response] err] sent1]| |]
      eqn:Hd; [|done|done].
    injection H as <- <- <- <-.
    assert (Hopen : open_iff_running
              (mkClient (mkSession (answer env operation (conn s) err response).1 subs1)
                 match (answer env operation (conn s) err response).2 with
                 | Continue => Running | Break => Leaving end t)).
    { unfold open_iff_running. simpl.
      destruct (answer env operation (conn s) err response).2 eqn:Hctl.
      - apply SessionMore.answer_continue in Hctl as (_ & _ & ->). done.
      - apply SessionMore.answer_break in Hctl. rewrite Hctl. done. }
    apply dispatch_effect in Hd as [[-> Hm] | [-> (n & c & Hl & ->)]].
    + split_and!; [done| |done].
      apply (listens_on_registered_moves env g g1 (mkClient s Running t) Hm) in Hsub.
      done.
    + split_and!; [by left| |done].
      intros id. simpl. unfold map_get.
      destruct (decide (Conversation_ID c = id)) as [<-|Hne].
      * intros _. destruct Hinv as (_ & Hidx & _). apply Hidx in Hl as [Hc _].
        unfold ids. apply list_elem_of_fmap. eauto.
      * rewrite lookup_insert_ne by done. apply Hsub.
  - injection H as <- <- <- <-. split_and!; [by left|done|].
    unfold open_iff_running. simpl.
    by rewrite SessionHandler.writeErrorResponse_closes.
Qed.

(** Every step of the server keeps the invariants. *)
Lemma step_inv (env : Env) (sys sys' : System) (a : action) :
  server_inv env sys →
  step env sys a = Some sys' →
  server_inv env sys' ∧ moves env (globals sys) (globals sys').
Proof.
  intros (Hreg & Hdist & Hsub & Hopen).
  apply subscriptions_registered_Forall in Hsub.
  apply open_while_running_Forall in Hopen.
  assert (Hfinish : ∀ g' cs' b,
    moves env (globals sys) g' →
    Forall (listens_on_registered g') cs' →
    Forall open_iff_running cs' →
    server_inv env (mkSystem g' cs' b) ∧ moves env (globals sys) g').
  { intros g' cs' b Hm Hs Ho. split; [|done].
    destruct (moves_inv env _ _ Hm Hreg Hdist) as (? & ? & _).
    split_and!; [done|done| |].
    - by apply subscriptions_registered_Forall.
    - by apply open_while_running_Forall. }
  assert (Hkeep : ∀ g', moves env (globals sys) g' →
                        Forall (listens_on_registered g') (clients sys)).
  { intros g' Hm. eapply Forall_impl; [exact Hsub|].
    intros c. by apply (listens_on_registered_moves env). }
  destruct sys as [g cs [|]]; [done|].
  unfold step. cbn [crashed clients globals] in *.
  destruct a as [request|i request receiver|j|i].
  - destruct (handshake env request None g (mkConn [] false))
      as [[[g' conn'] identity]| |] eqn:Hh; [| |done].
    + destruct (SessionMore.handshake_cases env request g g' (mkConn [] false) conn'
                  identity eq_refl Hh) as [Hg Hid].
      assert (Hm : moves env g g') by (destruct Hg as [->| ->]; [by left|right; by left]).
      assert (Hnew : ∀ ph t, (ph = Running ↔ closed conn' = false) →
                Forall (listens_on_registered g') (cs ++ [mkClient (mkSession conn' ∅) ph t])
                ∧ Forall open_iff_running (cs ++ [mkClient (mkSession conn' ∅) ph t])).
      { intros ph t Hph. split; apply Forall_app; (split; [auto|]);
          apply Forall_singleton; [|done].
        by intros id. }
      destruct identity as [identity|]; intros [= <-].
      * destruct (Hnew Running Idle) as [? ?]; [|by apply Hfinish].
        split; [intros _; apply Hid; eauto|done].
      * destruct (Hnew Exited Stopped) as [? ?]; [|by apply Hfinish].
        split; [done|]. intros Hc. apply Hid in Hc as [? ?]. done.
    + intros [= <-]. apply Hfinish; [by left|by apply Hkeep; left|done].
  - destruct (cs !! i) as [[s [| |] t]|] eqn:Hi; try done.
    destruct (serveRequest env request g s) as [[[[g' s'] sent] ctl]| |] eqn:Hs;
      [| |done].
    + destruct (serveRequest_inv env request g g' s s' t sent ctl Hs Hreg
                  (Forall_lookup_1 _ _ _ _ Hsub Hi)) as (Hm & Hs' & Ho').
      assert (Hcs : Forall (listens_on_registered g')
                      (<[i := mkClient s' match ctl with
                                          | Continue => Running | Break => Leaving end t]> cs)
                    ∧ Forall open_iff_running
                        (<[i := mkClient s' match ctl with
                                            | Continue => Running | Break => Leaving end t]> cs)).
      { split; apply Forall_insert; auto. }
      destruct Hcs as [Hcs1 Hcs2].
      destruct sent as [m|].
      * destruct (hand_over receiver m _) as [cs'|] eqn:Hh; [|done].
        intros [= <-]. apply Hfinish; [done| |].
        -- eapply hand_over_Forall; [|exact Hh|exact Hcs1].
           intros s0 ph t0 t' H0. exact H0.
        -- eapply hand_over_Forall; [|exact Hh|exact Hcs2].
           intros s0 ph t0 t' H0. exact H0.
      * intros [= <-]. by apply Hfinish.
    + intros [= <-]. apply Hfinish; [by left|by apply Hkeep; left|done].
  - destruct (cs !! j) as [[s ph [|m|]]|] eqn:Hj; try done.
    destruct (deliverMessage env s m) as [conn'| |] eqn:Hd; [| |done].
    + intros [= <-]. apply Hfinish; [by left| |].
      * apply Forall_insert; [by apply Hkeep; left|].
        exact (Forall_lookup_1 _ _ _ _ Hsub Hj).
      * apply Forall_insert; [done|].
        pose proof (Forall_lookup_1 _ _ _ _ Hopen Hj) as Ho.
        unfold open_iff_running in *. simpl in *.
        by rewrite (deliverMessage_closed_flag env s m conn' Hd).
    + intros [= <-]. apply Hfinish; [by left|by apply Hkeep; left|done].
  - destruct (cs !! i) as [[s [| |] [| |]]|] eqn:Hi; try done.
    intros [= <-]. apply Hfinish; [by left| |].
    + apply Forall_insert; [by apply Hkeep; left|].
      exact (Forall_lookup_1 _ _ _ _ Hsub Hi).
    + apply Forall_insert; [done|].
      pose proof (Forall_lookup_1 _ _ _ _ Hopen Hi) as Ho.
      unfold open_iff_running in *. simpl in *.
      split; [done|]. intros Hc. apply Ho in Hc. done.
Qed.

Lemma boot_inv (env : Env) : server_inv env boot.
Proof.
  split_and!.
  - apply registry_inv_initial.
  - intros _. constructor.
  - intros j c id Hj. done.
  - intros j c Hj. done.
Qed.

Lemma run_inv (env : Env) (acts : list action) :
  ∀ sys sys',
    server_inv env sys →
    run env sys acts = Some sys' →
    server_inv env sys'
    ∧ conversations (globals sys) `prefix_of` conversations (globals sys').
Proof.
  induction acts as [|a acts IH]; intros sys sys' Hinv; simpl.
  - by intros [= <-].
  - destruct (step env sys a) as [sys1|] eqn:Hstep; [|done].
    destruct (step_inv env sys sys1 a Hinv Hstep) as [Hinv1 Hm].
    destruct Hinv as (Hreg & Hdist & _).
    destruct (moves_inv env _ _ Hm Hreg Hdist) as (_ & _ & Hpre).
    intros Hrun. destruct (IH sys1 sys' Hinv1 Hrun) as [? ?].
    split; [done|by etrans].
Qed.

Lemma reachable_inv (env : Env) (sys : System) :
  reachable env sys → server_inv env sys.
Proof. intros [acts Hrun]. by destruct (run_inv env acts boot sys (boot_inv env) Hrun). Qed.







(** X17: in every reachable state, the connection of a client is open
    exactly while its [handleConnection] is in the loop: an accepted
    client whose handshake failed, and a client whose loop has ended,
    have their connections closed. *)
Theorem open_exactly_while_running (env : Env) (sys : System) (j : nat) (c : Client) :
  reachable env sys →
  clients sys !! j = Some c →
  (main c = Running ↔ closed (conn (session c)) = false).
Proof.
  intros Hreach Hj. destruct (reachable_inv env sys Hreach) as (_ & _ & _ & Hopen).
  by apply (Hopen j c).
Qed.

Lemma open_exactly_while_running_witness :
  let ghost :=
    sample.request SubscribeOperationType (sample.enc_Conversation (sample.named "ghost")) in
  let sys := scenario.state_after (scenario.setup ++ [Serve 2 ghost 0]) in
  ∃ c, reachable sample.env sys
       ∧ clients sys !! 2 = Some c
       ∧ main c = Leaving
       ∧ (main c = Running ↔ closed (conn (session c)) = false).
Proof.
  cbv zeta.
  set (acts := scenario.setup
                 ++ [Serve 2 (sample.request SubscribeOperationType
                                (sample.enc_Conversation (sample.named "ghost"))) 0]).
  assert (Hreach : reachable sample.env (scenario.state_after acts))
    by (exists acts; vm_compute; reflexivity).
  destruct (clients (scenario.state_after acts) !! 2) as [c|] eqn:Hc;
    [|vm_compute in Hc; discriminate Hc].
  exists c. split_and!; [exact Hreach|reflexivity| |].
  - vm_compute in Hc. injection Hc as <-. reflexivity.
  - exact (open_exactly_while_running sample.env _ 2 c Hreach Hc).
Defined.

End Invariants.

(** ** More on the broadcast router *)

Module RouterMore.
Import common server system Spec Laws.

(** X18: when the delivery goroutine of a client holds a message
    whose conversation id is in the client's subscriptions, the
    connection is open and the encoders succeed, the delivery step
    sends exactly one frame on that connection, the ok response of type
    "message" with the encoded message as payload; the goroutine holds
    nothing afterwards and the registry is untouched. *)
Theorem delivery_writes_one_frame (env : Env) (sys : System) (j : nat) (c : Client)
    (m : Message) (conversation : Conversation) (b responseBytes : list byte) :
  crashed sys = false →
  clients sys !! j = Some c →
  subscriber c = Holding m →
  Message_Conversation m = Some conversation →
  map_get (conversationsToListenOn (session c)) (Conversation_ID conversation) = true →
  Marshal_Message env m = (b, None) →
  Marshal_Response env (ok_response b MessageOperationType) = (responseBytes, None) →
  closed (conn (session c)) = false →
  ∃ sys',
    step env sys (Deliver j) = Some sys'
    ∧ sent_to sys' j = sent_to sys j ++ responseBytes ++ EOFBytes
    ∧ holds sys' j = None
    ∧ globals sys' = globals sys.
Proof.
  intros Hcr Hj Hsub Hconv Hlisten Hb Hresp Hopen.
  destruct sys as [g cs cr]. simpl in Hcr, Hj. subst cr.
  destruct c as [s ph t]. simpl in Hsub, Hlisten, Hopen. subst t.
  unfold step. cbn [crashed clients globals]. rewrite Hj.
  unfold deliverMessage. rewrite Hconv, Hlisten, Hb.
  pose proof (SessionMore.writeOKResponse_outcome_aux env (conn s) b
                MessageOperationType) as Hw.
  rewrite Hresp in Hw. rewrite (Hw Hopen).
  eexists. split; [reflexivity|].
  unfold sent_to, holds. simpl.
  rewrite list_lookup_insert_eq by (by eapply lookup_lt_Some).
  rewrite Hj. done.
Qed.

Lemma delivery_writes_one_frame_witness :
  let sys := scenario.state_after (scenario.setup ++ [scenario.publish 0]) in
  let sys' := scenario.state_after (scenario.setup ++ [scenario.publish 0; Deliver 0]) in
  step sample.env sys (Deliver 0) = Some sys'
  ∧ ∃ c, clients sys !! 0 = Some c
         ∧ subscriber c = Holding sample.hi
         ∧ closed (conn (session c)) = false
         ∧ ∃ sys'',
             step sample.env sys (Deliver 0) = Some sys''
             ∧ sent_to sys'' 0 = sent_to sys 0 ++ scenario.pushed
             ∧ holds sys'' 0 = None
             ∧ globals sys'' = globals sys.
Proof.
  cbv zeta.
  set (sys := scenario.state_after (scenario.setup ++ [scenario.publish 0])).
  split; [vm_compute; reflexivity|].
  destruct (clients sys !! 0) as [c|] eqn:Hc; [|vm_compute in Hc; discriminate Hc].
  assert (Hc' := Hc). vm_compute in Hc'. injection Hc' as Hc'.
  exists c. split_and!; [reflexivity|by rewrite <- Hc'|by rewrite <- Hc'|].
  apply (delivery_writes_one_frame sample.env sys 0 c sample.hi
           (mkConversation 4099 "general") (sample.enc_Message sample.hi)
           (sample.enc_Response
              (mkResponse "ok" MessageOperationType None
                 (Some (sample.enc_Message sample.hi)))));
    [vm_compute; reflexivity|exact Hc|by rewrite <- Hc'|reflexivity
    |rewrite <- Hc'; vm_compute; reflexivity|reflexivity|vm_compute; reflexivity
    |by rewrite <- Hc'].
Defined.

(** X19: once the loop of a client has ended, a message that its
    delivery goroutine still handles is dropped: in every reachable
    state, a delivery to a client that is not running sends nothing on
    its connection. *)
Theorem late_delivery_is_dropped (env : Env) (sys sys' : System) (j : nat) (c : Client) :
  reachable env sys →
  clients sys !! j = Some c →
  main c ≠ Running →
  step env sys (Deliver j) = Some sys' →
  sent_to sys' j = sent_to sys j.
Proof.
  intros Hreach Hj Hmain.
  assert (Hclosed : closed (conn (session c)) = true).
  { destruct (Invariants.reachable_inv env sys Hreach) as (_ & _ & _ & Hopen).
    destruct (closed (conn (session c))) eqn:Hc; [done|].
    destruct Hmain. by apply (Hopen j c Hj). }
  destruct sys as [g cs [|]]; [done|].
  unfold step. cbn [crashed clients globals] in *. rewrite Hj.
  destruct c as [s ph [|m|]]; try done. simpl in Hclosed.
  unfold deliverMessage.
  destruct (Message_Conversation m) as [conversation|]; [|by intros [= <-]].
  assert (Hsame : ∀ conn', written conn' = written (conn s) →
            sent_to (mkSystem g (<[j := mkClient (mkSession conn' (conversationsToListenOn s))
                                         ph Idle]> cs) false) j
            = sent_to (mkSystem g cs false) j).
  { intros conn' Hw. unfold sent_to. simpl.
    rewrite list_lookup_insert_eq by (by eapply lookup_lt_Some). by rewrite Hj. }
  destruct (map_get _ _); [|intros [= <-]; by apply Hsame].
  destruct (Marshal_Message env m) as [b [e|]]; [intros [= <-]; by apply Hsame|].
  destruct (SessionMore.writeOKResponse_closed env (conn s) b MessageOperationType Hclosed)
    as [e ->].
  intros [= <-]. by apply Hsame.
Qed.

Lemma late_delivery_is_dropped_witness :
  let ghost :=
    sample.request SubscribeOperationType (sample.enc_Conversation (sample.named "ghost")) in
  let acts := scenario.setup ++ [scenario.publish 0; Serve 0 ghost 1] in
  let sys := scenario.state_after acts in
  let sys' := scenario.state_after (acts ++ [Deliver 0]) in
  ∃ c, reachable sample.env sys
       ∧ clients sys !! 0 = Some c
       ∧ main c ≠ Running
       ∧ subscriber c = Holding sample.hi
       ∧ step sample.env sys (Deliver 0) = Some sys'
       ∧ sent_to sys' 0 = sent_to sys 0.
Proof.
  cbv zeta.
  set (acts := scenario.setup
                 ++ [scenario.publish 0;
                     Serve 0 (sample.request SubscribeOperationType
                                (sample.enc_Conversation (sample.named "ghost"))) 1]).
  assert (Hreach : reachable sample.env (scenario.state_after acts))
    by (exists acts; vm_compute; reflexivity).
  assert (Hstep : step sample.env (scenario.state_after acts) (Deliver 0)
                  = Some (scenario.state_after (acts ++ [Deliver 0])))
    by (vm_compute; reflexivity).
  destruct (clients (scenario.state_after acts) !! 0) as [c|] eqn:Hc;
    [|vm_compute in Hc; discriminate Hc].
  assert (Hc' := Hc). vm_compute in Hc'. injection Hc' as Hc'.
  assert (Hmain : main c ≠ Running) by (by rewrite <- Hc').
  exists c. split_and!; [exact Hreach|reflexivity|exact Hmain|by rewrite <- Hc'
                        |exact Hstep|].
  exact (late_delivery_is_dropped sample.env _ _ 0 c Hreach Hc Hmain Hstep).
Defined.

(** X20: a message operation whose payload decodes to a message
    without a conversation ends the whole server. The loop of the
    sender hands the message to a delivery goroutine as it is, that
    goroutine panics on it, and no client is served after that. *)
Theorem message_without_conversation_crashes (env : Env) (sys : System) (i j : nat)
    (s sj : Session) (t : worker) (ph : phase) (request raw : list byte)
    (operation : Operation) (m : Message) :
  crashed sys = false →
  clients sys !! i = Some (mkClient s Running t) →
  clients sys !! j = Some (mkClient sj ph Idle) →
  Unmarshal_Operation env request = Some operation →
  Operation_Type operation = MessageOperationType →
  Operation_Message operation = Some raw →
  Unmarshal_Message env raw = Some m →
  Message_Conversation m = None →
  ∃ sys1,
    step env sys (Serve i request j) = Some sys1
    ∧ step env sys1 (Deliver j) = Some (crash sys1)
    ∧ ∀ a, step env (crash sys1) a = None.
Proof.
  intros Hcr Hi Hj Hop Htype Hmsg Hraw Hconv.
  destruct sys as [g cs cr]. simpl in Hcr, Hi, Hj. subst cr.
  unfold step at 1. cbn [crashed clients globals]. rewrite Hi.
  rewrite SessionMore.serveRequest_dispatch, Hop.
  unfold dispatch. rewrite Htype. simpl.
  unfold handleMessage. rewrite Hmsg, Hraw.
  set (a := answer env operation (conn s) None emptyJSON).
  set (c' := mkClient (mkSession a.1 (conversationsToListenOn s))
               match a.2 with Continue => Running | Break => Leaving end t).
  assert (Hlen : i < length cs) by (by eapply lookup_lt_Some).
  assert (Hcj : ∃ sj' ph', <[i := c']> cs !! j = Some (mkClient sj' ph' Idle)).
  { destruct (decide (i = j)) as [->|Hne].
    - rewrite list_lookup_insert_eq by done. rewrite Hi in Hj. injection Hj as -> _ ->.
      unfold c'. eauto.
    - rewrite list_lookup_insert_ne by done. eauto. }
  destruct Hcj as (sj' & ph' & Hcj).
  unfold hand_over. rewrite Hcj.
  eexists. split; [reflexivity|]. split; [|done].
  unfold step. cbn [crashed clients globals].
  rewrite list_lookup_insert_eq by (rewrite length_insert; by eapply lookup_lt_Some).
  unfold deliverMessage. by rewrite Hconv.
Qed.

Lemma message_without_conversation_crashes_witness :
  let sys := scenario.state_after scenario.setup in
  let request := sample.request MessageOperationType emptyJSON in
  ∃ s sj t ph,
    crashed sys = false
    ∧ clients sys !! 1 = Some (mkClient s Running t)
    ∧ clients sys !! 0 = Some (mkClient sj ph Idle)
    ∧ Unmarshal_Operation sample_more.env request
      = Some (sample.op MessageOperationType emptyJSON)
    ∧ Unmarshal_Message sample_more.env emptyJSON = Some sample_more.empty_message
    ∧ ∃ sys1,
        step sample_more.env sys (Serve 1 request 0) = Some sys1
        ∧ step sample_more.env sys1 (Deliver 0) = Some (crash sys1)
        ∧ ∀ a, step sample_more.env (crash sys1) a = None.
Proof.
  cbv zeta.
  set (sys := scenario.state_after scenario.setup).
  destruct (clients sys !! 1) as [[s [| |] t]|] eqn:H1;
    try (vm_compute in H1; discriminate H1).
  destruct (clients sys !! 0) as [[sj ph [| |]]|] eqn:H0;
    try (vm_compute in H0; discriminate H0).
  exists s, sj, t, ph.
  split_and!; [reflexivity|reflexivity|reflexivity|vm_compute; reflexivity
              |vm_compute; reflexivity|].
  apply (message_without_conversation_crashes sample_more.env sys 1 0 s sj t ph
           (sample.request MessageOperationType emptyJSON) emptyJSON
           (sample.op MessageOperationType emptyJSON) sample_more.empty_message);
    [reflexivity|exact H1|exact H0|vm_compute; reflexivity|reflexivity|reflexivity
    |vm_compute; reflexivity|reflexivity].
Defined.

End RouterMore.

(** ** The client: requests and acknowledgements *)

Module ClientMore.
Import common server client issuer Spec Laws.

(** X21: [getConversationByNickname] returns, without error, the
    first conversation of the cache whose nickname equals the one asked
    for once both are lower-cased; when there is none it returns an
    empty conversation, with the zero id, together with an error. *)
Theorem getConversationByNickname_first_match (ToLower : string → string)
    (cache : list Conversation) (nickname : string) :
  match getConversationByNickname ToLower cache nickname with
  | (c, None) =>
      ∃ before after,
        cache = before ++ c :: after
        ∧ ToLower (Conversation_Nickname c) = ToLower nickname
        ∧ Forall (λ c', ToLower (Conversation_Nickname c') ≠ ToLower nickname) before
  | (c, Some _) =>
      c = mkConversation uuid_Nil ""
      ∧ Forall (λ c', ToLower (Conversation_Nickname c') ≠ ToLower nickname) cache
  end.
Proof.
  induction cache as [|c cache IH]; simpl; [done|].
  destruct (decide (ToLower (Conversation_Nickname c) = ToLower nickname)) as [Heq|Hne].
  - exists [], cache. by split_and!.
  - destruct (getConversationByNickname ToLower cache nickname) as [c' [e|]].
    + destruct IH as [-> Hall]. split; [done|]. by constructor.
    + destruct IH as (before & after & -> & ? & ?).
      exists (c :: before), after. split_and!; [done|done|by constructor].
Qed.

Lemma getConversationByNickname_miss (ToLower : string → string)
    (cache : list Conversation) (nickname : string) :
  Forall (λ c, ToLower (Conversation_Nickname c) ≠ ToLower nickname) cache →
  ∃ e, getConversationByNickname ToLower cache nickname
       = (mkConversation uuid_Nil "", Some e).
Proof.
  induction 1 as [|c cache Hc _ IH]; simpl; [eauto|].
  by rewrite decide_False.
Qed.

(** X22: [sendMessage] for a nickname that matches no conversation of
    the cache reports no error: it sends a message operation whose
    message is addressed to the empty conversation with the zero id,
    signed with the client's own identity. *)
Theorem sendMessage_unknown_conversation (env : Env) (ToLower : string → string)
    (st : State) (conn : Conn) (convNickname text : string) (b payload : list byte) :
  Forall (λ c, ToLower (Conversation_Nickname c) ≠ ToLower convNickname)
    (globalConversations st) →
  Marshal_Message env
    (mkMessage (Some (mkConversation uuid_Nil "")) (Some (clientInfo st)) text)
  = (b, None) →
  Marshal_Operation env (mkOperation MessageOperationType (Some b)) = (payload, None) →
  closed conn = false →
  sendMessage env ToLower st conn convNickname (text, None)
  = (mkConn (written conn ++ payload ++ EOFBytes ++ EOFBytes) false, None).
Proof.
  intros Hall Hb Hpayload Hopen. unfold sendMessage.
  pose proof (getConversationByNickname_miss ToLower (globalConversations st)
                convNickname Hall) as [e ->].
  rewrite Hb.
  by rewrite (FrameWriters.writeJSONTo_written (Marshal_Operation env) conn _ payload
                Hpayload Hopen).
Qed.

Lemma sendMessage_unknown_conversation_witness :
  let st := mkState [mkConversation 4099 "general"] sample.bob [] in
  let message := mkMessage (Some (mkConversation uuid_Nil "")) (Some sample.bob) "hi" in
  let payload :=
    sample.enc_Operation (sample.op MessageOperationType (sample.enc_Message message)) in
  Forall (λ c, Conversation_Nickname c ≠ "random") (globalConversations st)
  ∧ sendMessage sample.env id st (mkConn [] false) "random" ("hi", None)
    = (mkConn ([] ++ payload ++ EOFBytes ++ EOFBytes) false, None).
Proof.
  assert (Hall : Forall (λ c, id (Conversation_Nickname c) ≠ id "random")
                   (globalConversations
                      (mkState [mkConversation 4099 "general"] sample.bob [])))
    by (repeat constructor; discriminate).
  split; [exact Hall|].
  exact (sendMessage_unknown_conversation sample.env id _ (mkConn [] false) "random" "hi"
           _ _ Hall eq_refl eq_refl eq_refl).
Defined.

(** X23: the acknowledgement of a message brings the sender's own
    client down. The server answers a message operation with the ok
    response of type "message" and the empty object as payload; the
    receive loop of the client treats every response of that type as a
    pushed message, decodes the empty object to a message without
    sender, and panics when it prints the sender's name. *)
Theorem own_message_acknowledgement_panics (env : Env) (request raw : list byte)
    (g : Globals) (s : Session) (operation : Operation) (m empty : Message)
    (responseBytes : list byte) (events : list event) (st : State) :
  Unmarshal_Operation env request = Some operation →
  Operation_Type operation = MessageOperationType →
  Operation_Message operation = Some raw →
  Unmarshal_Message env raw = Some m →
  Marshal_Response env (mkResponse "ok" MessageOperationType None (Some emptyJSON))
  = (responseBytes, None) →
  closed (conn s) = false →
  Unmarshal_Response env (take 1024 (responseBytes ++ EOFBytes))
  = Some (mkResponse "ok" MessageOperationType None (Some emptyJSON)) →
  Unmarshal_Message env emptyJSON = Some empty →
  Message_Sender empty = None →
  serveRequest env request g s
  = Done (g,
          mkSession (mkConn (written (conn s) ++ responseBytes ++ EOFBytes) false)
            (conversationsToListenOn s),
          Some m, Continue)
  ∧ handleIncoming env (ConnRead (responseBytes ++ EOFBytes) None :: events) st
    = Ended Panicked st.
Proof.
  intros Hop Htype Hmsg Hraw Hresp Hopen Hdec Hempty Hsender. split.
  - rewrite SessionMore.serveRequest_dispatch, Hop.
    unfold dispatch. rewrite Htype. simpl.
    unfold handleMessage. rewrite Hmsg, Hraw. unfold answer. rewrite Htype.
    pose proof (SessionMore.writeOKResponse_outcome_aux env (conn s) emptyJSON
                  MessageOperationType) as Hw.
    unfold ok_response in Hw. rewrite decide_True in Hw by done. rewrite Hresp in Hw.
    by rewrite (Hw Hopen).
  - simpl. rewrite Hdec. simpl.
    unfold handleResponse. simpl. by rewrite Hempty, Hsender.
Qed.

Lemma own_message_acknowledgement_panics_witness :
  let request := sample.request MessageOperationType (sample.enc_Message sample.hi) in
  let responseBytes := sample.enc_Response sample_more.acknowledgement in
  let s := mkSession (mkConn [] false) ∅ in
  let st := mkState [] sample.bob [] in
  Unmarshal_Operation sample_more.env request
  = Some (sample.op MessageOperationType (sample.enc_Message sample.hi))
  ∧ Unmarshal_Message sample_more.env (sample.enc_Message sample.hi) = Some sample.hi
  ∧ Unmarshal_Response sample_more.env (take 1024 (responseBytes ++ EOFBytes))
    = Some sample_more.acknowledgement
  ∧ Unmarshal_Message sample_more.env emptyJSON = Some sample_more.empty_message
  ∧ serveRequest sample_more.env request initial s
    = Done (initial,
            mkSession (mkConn (written (conn s) ++ responseBytes ++ EOFBytes) false)
              (conversationsToListenOn s),
            Some sample.hi, Continue)
  ∧ handleIncoming sample_more.env (ConnRead (responseBytes ++ EOFBytes) None :: []) st
    = Ended Panicked st.
Proof.
  split_and!; [vm_compute; reflexivity|vm_compute; reflexivity|vm_compute; reflexivity
              |vm_compute; reflexivity| |];
    apply (own_message_acknowledgement_panics sample_more.env
             (sample.request MessageOperationType (sample.enc_Message sample.hi))
             (sample.enc_Message sample.hi) initial (mkSession (mkConn [] false) ∅)
             (sample.op MessageOperationType (sample.enc_Message sample.hi))
             sample.hi sample_more.empty_message
             (sample.enc_Response sample_more.acknowledgement) []
             (mkState [] sample.bob []));
    first [reflexivity | vm_compute; reflexivity].
Defined.





End ClientMore.
